(** * Election simulator: a shallow embedding of [src/election.py]

    The development follows the Python module class by class.  Python
    objects become records, the module's loops become structural
    recursions, and the two effects the module has are written out:

    - exceptions ([raise Exception], the [IndexError] of [agreements[0]],
      the [KeyError] of a dictionary subscript) are values of [PyExn]
      carried in a sum type;
    - the ambient numpy random source is an explicit oracle [RNG] that is
      threaded through voter generation.

    Numbers: vote counters and tallies are Python [int]s that only grow
    from [0], modelled by [nat]; a population size is a JSON integer,
    modelled by [Z]; importance weights and agreement scores are Python
    floats, idealised here as exact rationals [Q] (rounding is not
    modelled; every comparison the module performs on them is kept). *)

From Stdlib Require Import String Ascii.
From Stdlib Require Import List ZArith QArith Lia Lqa Bool Arith PeanoNat.
From Stdlib Require Import Permutation Sorted.
Import ListNotations.

Close Scope Q_scope.
Local Open Scope list_scope.

(** ** Python preliminaries *)

(** The exceptions of a run: the first three are raised by the module's
    own statements, [ValueError] comes out of numpy. *)
Inductive PyExn : Type :=
| Exception
| IndexError
| KeyError
| ValueError.

(** A computation that either raises or returns. *)
Definition result (A : Type) : Type := (PyExn + A)%type.

Definition raise {A : Type} (e : PyExn) : result A := inl e.
Definition ret {A : Type} (a : A) : result A := inr a.

Definition bind {A B : Type} (m : result A) (k : A -> result B) : result B :=
  match m with
  | inl e => inl e
  | inr a => k a
  end.

Declare Scope py_scope.
Delimit Scope py_scope with py.
Notation "x <- m ;; k" := (bind m (fun x => k))
  (at level 61, m at next level, right associativity) : py_scope.

(** [[f(x) for x in l]] where [f] may raise: evaluation is left to right
    and stops at the first exception. *)
Fixpoint list_comp {A B : Type} (f : A -> result B) (l : list A) : result (list B) :=
  match l with
  | [] => ret []
  | x :: xs =>
      match f x with
      | inl e => inl e
      | inr y =>
          match list_comp f xs with
          | inl e => inl e
          | inr ys => inr (y :: ys)
          end
      end
  end.

(** [l[i]] for a Python list, negative subscripts counting from the end. *)
Definition py_getitem {A : Type} (l : list A) (i : Z) : result A :=
  let n := Z.of_nat (length l) in
  let j := if (i <? 0)%Z then (i + n)%Z else i in
  if ((j <? 0)%Z || (n <=? j)%Z)%bool then raise IndexError
  else match nth_error l (Z.to_nat j) with
       | Some x => ret x
       | None => raise IndexError
       end.

(** *** Insertion-ordered dictionaries with string keys *)

Definition dict (V : Type) : Type := list (string * V).

Fixpoint dict_get {V : Type} (d : dict V) (k : string) : result V :=
  match d with
  | [] => raise KeyError
  | (k', v) :: d' => if String.eqb k' k then ret v else dict_get d' k
  end.

(** [d[k] = v]: an existing key keeps its place, a new key goes last. *)
Fixpoint dict_set {V : Type} (d : dict V) (k : string) (v : V) : dict V :=
  match d with
  | [] => [(k, v)]
  | (k', v') :: d' =>
      if String.eqb k' k then (k', v) :: d' else (k', v') :: dict_set d' k v
  end.

(** [{s: v for s in keys}] *)
Definition dict_fromkeys {V : Type} (keys : list string) (v : V) : dict V :=
  fold_left (fun d s => dict_set d s v) keys [].

(** [d.items()] iterates in insertion order. *)
Definition items {V : Type} (d : dict V) : list (string * V) := d.

(** *** [sorted]

    Python's [sorted] is stable and compares keys with [<] only.  Its
    result on keys that [<] orders totally (up to ties) is the one a
    stable insertion sort produces; that is the definition used here.
    With [reverse=True] the list is reversed, sorted, and reversed
    again, which is how CPython keeps equal keys in input order. *)

Section Sorted.

Context {A K : Type}.
Variable key : A -> K.
Variable lt : K -> K -> bool.

Fixpoint insert (x : A) (l : list A) : list A :=
  match l with
  | [] => [x]
  | y :: ys => if lt (key y) (key x) then y :: insert x ys else x :: y :: ys
  end.

Fixpoint sorted (l : list A) : list A :=
  match l with
  | [] => []
  | x :: xs => insert x (sorted xs)
  end.

Definition sorted_reverse (l : list A) : list A := rev (sorted (rev l)).

(** No element is followed by one with a smaller key. *)
Fixpoint ascending (l : list A) : Prop :=
  match l with
  | [] => True
  | x :: xs =>
      match xs with
      | [] => True
      | y :: _ => lt (key y) (key x) = false
      end /\ ascending xs
  end.

End Sorted.

(** Comparisons used as [<] on keys. *)
Definition Qltb (x y : Q) : bool := negb (Qle_bool y x).

(** [max(0, x)]: the builtin keeps its first argument unless a later one
    is strictly greater. *)
Definition py_max0 (x : Q) : Q := if Qltb 0 x then x else 0%Q.

(** Stances are strings; the majority candidate may carry [None]. *)
Definition stance_eqb (a b : option string) : bool :=
  match a, b with
  | Some s, Some t => String.eqb s t
  | None, None => true
  | _, _ => false
  end.

(** ** The random source

    [np.random.choice] and [np.random.normal] draw from numpy's global
    generator.  The oracle lists, call by call, what the generator
    yields: for a choice, a number that selects one of the labels on
    offer; for a normal draw, the value drawn.  A property proved for
    every oracle holds for every outcome of the draws.  The oracle may
    select a label of probability zero, and it answers also where numpy
    would reject the probabilities or the scale; the outcomes of the
    program are among those of the oracle. *)

Record RNG : Type := mkRNG {
  choices : nat -> nat;
  normals : nat -> Q
}.

(** Generation threads the random source and may raise. *)
Definition Gen (A : Type) : Type := RNG -> result A * RNG.

Definition gret {A : Type} (a : A) : Gen A := fun r => (inr a, r).

Definition graise {A : Type} (e : PyExn) : Gen A := fun r => (inl e, r).

Definition gbind {A B : Type} (m : Gen A) (k : A -> Gen B) : Gen B :=
  fun r =>
    match m r with
    | (inl e, r') => (inl e, r')
    | (inr a, r') => k a r'
    end.

Definition lift {A : Type} (m : result A) : Gen A := fun r => (m, r).

Declare Scope gen_scope.
Delimit Scope gen_scope with gen.
Notation "x <- m ;; k" := (gbind m (fun x => k))
  (at level 61, m at next level, right associativity) : gen_scope.

(** [np.random.choice(a, p=p)]: one of the labels of [a]; numpy raises
    [ValueError] when there is none. *)
Definition np_random_choice (a : list string) (p : list Q) : Gen string :=
  fun r =>
    match a with
    | [] => graise ValueError r
    | s :: _ =>
        (inr (nth (choices r 0 mod length a) a s),
         mkRNG (fun n => choices r (S n)) (normals r))
    end.

(** [np.random.normal(loc, scale, 1)[0]] *)
Definition np_random_normal (loc scale : Q) : Gen Q :=
  fun r => (inr (normals r 0), mkRNG (choices r) (fun n => normals r (S n))).

(** ** The classes *)

(** [class Issue].  The name and the stance list are fixed at creation.
    The [vote_totals] dictionary of the class is filled only by the
    reporting code that runs after the winner and loser are known; it is
    not read by anything below and is left out of the record. *)
Module Issue.
Record t : Type := mk {
  name : string;
  stances : list string
}.
Definition init (name : string) (stances : list string) : t := mk name stances.
End Issue.

(** [class IssueVotes] *)
Module IssueVotes.
Record t : Type := mk {
  issue : Issue.t;
  stance_votes : dict nat
}.

Definition init (issue : Issue.t) : t :=
  mk issue (dict_fromkeys (Issue.stances issue) 0).

(** The loop of [get_majority_stance], with its two locals. *)
Fixpoint majority_loop (kvs : list (string * nat)) (biggest : nat)
    (maj_stance : option string) : option string :=
  match kvs with
  | [] => maj_stance
  | (k, v) :: kvs' =>
      if biggest <? v then majority_loop kvs' v (Some k)
      else majority_loop kvs' biggest maj_stance
  end.

Definition get_majority_stance (self : t) : option string :=
  majority_loop (items (stance_votes self)) 0 None.

(** [self.stance_votes[stance] += 1] *)
Definition vote_for_stance (self : t) (stance : option string) : result t :=
  match stance with
  | None => raise KeyError
  | Some s =>
      match dict_get (stance_votes self) s with
      | inl e => inl e
      | inr n => ret (mk (issue self) (dict_set (stance_votes self) s (n + 1)))
      end
  end.
End IssueVotes.

(** [class View] *)
Module View.
Record t : Type := mk {
  issue : Issue.t;
  stance : option string;
  weight : Q
}.
Definition init (issue : Issue.t) (stance : option string) (weight : Q) : t :=
  mk issue stance weight.
(** [lambda x: x.issue.name] *)
Definition issue_name (x : t) : string := Issue.name (issue x).
End View.

(** [class PopulationView] *)
Module PopulationView.
Record t : Type := mk {
  issue : Issue.t;
  proportions : dict Q;
  weight : Q;
  weight_variance : Q
}.
Definition init (issue : Issue.t) (proportions : dict Q) (weight weight_variance : Q) : t :=
  mk issue proportions weight weight_variance.
End PopulationView.

(** [class Candidate] *)
Module Candidate.
Record t : Type := mk {
  views : list View.t;
  votes : nat;
  name : string
}.

Definition init (name : string) (views : list View.t) : t :=
  mk (sorted View.issue_name String.ltb views) 0 name.

Definition receive_vote (self : t) : t :=
  mk (views self) (votes self + 1) (name self).
End Candidate.

(** The objects of a Python list are told apart by their position in it:
    [method_at k f l] is the list after the method [f] has run on the
    object at position [k]. *)
Fixpoint method_at {A : Type} (k : nat) (f : A -> A) (l : list A) : list A :=
  match l, k with
  | [], _ => []
  | x :: xs, O => f x :: xs
  | x :: xs, S k' => x :: method_at k' f xs
  end.

(** The dictionary [{'candidate': c, 'agreements': a}] of [Person.vote];
    the candidate object is referred to by its position in [candidates]. *)
Record c_agreements : Type := mk_c_agreements {
  candidate : nat;
  agreements : Q
}.

(** [class Person] *)
Module Person.
Record t : Type := mk {
  views : list View.t
}.

Local Open Scope gen_scope.

(** One turn of the loop of [_decide_views]. *)
Definition decide_view (i : PopulationView.t) : Gen View.t :=
  let issue := PopulationView.issue i in
  let possible_stances := Issue.stances issue in
  probabilities <- lift (list_comp (fun j => dict_get (PopulationView.proportions i) j)
                                   possible_stances) ;;
  choice <- np_random_choice possible_stances probabilities ;;
  let mean_importance := PopulationView.weight i in
  let std_importance := PopulationView.weight_variance i in
  draw <- np_random_normal mean_importance std_importance ;;
  let importance := py_max0 draw in
  gret (View.init issue (Some choice) importance).

(** [_decide_views]: [views] is [self.views] so far. *)
Fixpoint _decide_views (population_views : list PopulationView.t)
    (views : list View.t) : Gen (list View.t) :=
  match population_views with
  | [] => gret views
  | i :: rest =>
      v <- decide_view i ;;
      _decide_views rest (views ++ [v])
  end.

Definition init (population_views : list PopulationView.t) : Gen t :=
  views <- _decide_views population_views [] ;;
  gret (mk (sorted View.issue_name String.ltb views)).

Local Close Scope gen_scope.

(** The inner loop of [vote], over [zip(c.views, self.views)]. *)
Fixpoint score_views (zs : list (View.t * View.t)) (acc : Q) : result Q :=
  match zs with
  | [] => ret acc
  | (i, j) :: zs' =>
      if negb (String.eqb (View.issue_name i) (View.issue_name j))
      then raise Exception
      else score_views zs'
             (if stance_eqb (View.stance i) (View.stance j)
              then (acc + 1 * View.weight j)%Q
              else acc)
  end.

(** The agreement score of one candidate: the inner loop from [0]. *)
Definition score (self : t) (c : Candidate.t) : result Q :=
  score_views (combine (Candidate.views c) (views self)) 0%Q.

(** The outer loop of [vote]; [pos] is the position of the next candidate
    and [acc] the list [agreements] so far. *)
Fixpoint score_candidates (self : t) (candidates : list Candidate.t) (pos : nat)
    (acc : list c_agreements) : result (list c_agreements) :=
  match candidates with
  | [] => ret acc
  | c :: cs =>
      match score self c with
      | inl e => inl e
      | inr a => score_candidates self cs (S pos) (acc ++ [mk_c_agreements pos a])
      end
  end.

(** [vote]: the outcome, and the voter and the candidate objects as the
    call leaves them. *)
Definition vote (self : t) (candidates : list Candidate.t)
    : result unit * (t * list Candidate.t) :=
  match score_candidates self candidates 0 [] with
  | inl e => (inl e, (self, candidates))
  | inr agreements0 =>
      let agreements1 := sorted_reverse agreements Qltb agreements0 in
      match py_getitem agreements1 0 with
      | inl e => (inl e, (self, candidates))
      | inr top =>
          let preferred_candidate := candidate top in
          (inr tt, (self, method_at preferred_candidate Candidate.receive_vote candidates))
      end
  end.
End Person.

(** [class Population] *)
Module Population.
Record t : Type := mk {
  size : Z;
  name : string;
  population_views : list PopulationView.t;
  people : list Person.t
}.

Local Open Scope gen_scope.

(** [for _ in range(size)], with [n] turns left. *)
Fixpoint generate_loop (n : nat) (population_views : list PopulationView.t)
    (people : list Person.t) : Gen (list Person.t) :=
  match n with
  | O => gret people
  | S n' =>
      p <- Person.init population_views ;;
      generate_loop n' population_views (people ++ [p])
  end.

Definition _generate_people (size : Z) (population_views : list PopulationView.t)
    : Gen (list Person.t) :=
  generate_loop (Z.to_nat size) population_views [].

Definition init (name : string) (size : Z) (population_views : list PopulationView.t)
    : Gen t :=
  people <- _generate_people size population_views ;;
  gret (mk size name population_views people).

Local Close Scope gen_scope.
End Population.

(** ** The settings document

    [json.load] yields dictionaries and lists; the records below are the
    shape the module's docstrings give them, field for field. *)

Module IssueSetting.
Record t : Type := mk {
  name : string;
  stances : list string
}.
End IssueSetting.

Module CandidateViewSetting.
Record t : Type := mk {
  issue : string;
  stance : string
}.
End CandidateViewSetting.

Module CandidateSetting.
Record t : Type := mk {
  name : string;
  views : list CandidateViewSetting.t
}.
End CandidateSetting.

Module IssueViewSetting.
Record t : Type := mk {
  name : string;
  weight : Q;
  weight_variance : Q;
  stances : dict Q
}.
End IssueViewSetting.

Module PopulationSetting.
Record t : Type := mk {
  name : string;
  size : Z;
  issue_views : list IssueViewSetting.t
}.
End PopulationSetting.

Module Settings.
Record t : Type := mk {
  issues : list IssueSetting.t;
  candidates : list CandidateSetting.t;
  populations : list PopulationSetting.t
}.
End Settings.

(** ** The module-level functions *)

Definition generate_issues (issue_settings : list IssueSetting.t) : list Issue.t :=
  let issues :=
    map (fun i => Issue.init (IssueSetting.name i) (IssueSetting.stances i))
        issue_settings in
  sorted Issue.name String.ltb issues.

Definition generate_candidates (candidate_settings : list CandidateSetting.t)
    (issues : list Issue.t) : list Candidate.t :=
  map (fun c =>
         let cviews :=
           sorted CandidateViewSetting.issue String.ltb (CandidateSetting.views c) in
         let views :=
           map (fun '(cview, issue) =>
                  View.init issue (Some (CandidateViewSetting.stance cview)) 1%Q)
               (combine cviews issues) in
         Candidate.init (CandidateSetting.name c) views)
      candidate_settings.

Local Open Scope gen_scope.

Fixpoint generate_populations (pop_settings : list PopulationSetting.t)
    (issues : list Issue.t) : Gen (list Population.t) :=
  match pop_settings with
  | [] => gret []
  | pop :: rest =>
      let issue_views :=
        sorted IssueViewSetting.name String.ltb (PopulationSetting.issue_views pop) in
      let pop_views :=
        map (fun '(v, issue) =>
               PopulationView.init issue (IssueViewSetting.stances v)
                 (IssueViewSetting.weight v) (IssueViewSetting.weight_variance v))
            (combine issue_views issues) in
      p <- Population.init (PopulationSetting.name pop) (PopulationSetting.size pop)
             pop_views ;;
      ps <- generate_populations rest issues ;;
      gret (p :: ps)
  end.

Local Close Scope gen_scope.

Local Open Scope py_scope.

(** The inner loop of [generate_majority_candidate]: one voter's views
    against [issue_votes], position by position. *)
Fixpoint tally_views (views : list View.t) (issue_votes : list IssueVotes.t)
    : result (list IssueVotes.t) :=
  match views, issue_votes with
  | v :: vs, iv :: ivs =>
      iv' <- IssueVotes.vote_for_stance iv (View.stance v) ;;
      ivs' <- tally_views vs ivs ;;
      ret (iv' :: ivs')
  | _, _ => ret issue_votes
  end.

(** The outer loop, over the voters. *)
Fixpoint tally_people (people : list Person.t) (issue_votes : list IssueVotes.t)
    : result (list IssueVotes.t) :=
  match people with
  | [] => ret issue_votes
  | p :: ps =>
      issue_votes' <- tally_views (Person.views p) issue_votes ;;
      tally_people ps issue_votes'
  end.

Definition generate_majority_candidate (people : list Person.t) (issues : list Issue.t)
    : result Candidate.t :=
  let issue_votes := map IssueVotes.init issues in
  issue_votes' <- tally_people people issue_votes ;;
  let maj_views :=
    map (fun '(i, iv) => View.init i (IssueVotes.get_majority_stance iv) 1%Q)
        (combine issues issue_votes') in
  ret (Candidate.init "majority" maj_views).

(** The voting pass of [run_election]: the inner loop over the people of
    one population ... *)
Fixpoint vote_people (people : list Person.t) (candidates : list Candidate.t)
    (all_people : list Person.t) : result (list Candidate.t * list Person.t) :=
  match people with
  | [] => ret (candidates, all_people)
  | person :: rest =>
      match Person.vote person candidates with
      | (inl e, _) => inl e
      | (inr _, (person', candidates')) =>
          vote_people rest candidates' (all_people ++ [person'])
      end
  end.

(** ... and the outer loop over the populations. *)
Fixpoint vote_populations (populations : list Population.t)
    (candidates : list Candidate.t) (all_people : list Person.t)
    : result (list Candidate.t * list Person.t) :=
  match populations with
  | [] => ret (candidates, all_people)
  | pop :: rest =>
      st <- vote_people (Population.people pop) candidates all_people ;;
      vote_populations rest (fst st) (snd st)
  end.

(** What [run_election] has established when it prints the winner and the
    loser. *)
Record Tally : Type := mkTally {
  ranking : list Candidate.t;
  winner : Candidate.t;
  loser : Candidate.t;
  all_people : list Person.t
}.

(** The three [generate_] calls that open [run_election]. *)
Definition build (settings : Settings.t)
    : Gen (list Issue.t * list Candidate.t * list Population.t) :=
  let issues := generate_issues (Settings.issues settings) in
  let candidates := generate_candidates (Settings.candidates settings) issues in
  gbind (generate_populations (Settings.populations settings) issues)
        (fun populations => gret (issues, candidates, populations)).

(** The ranking that follows the voting pass. *)
Definition rank (candidates : list Candidate.t) (all_people : list Person.t)
    : result Tally :=
  let candidates := sorted_reverse Candidate.votes Nat.ltb candidates in
  winner <- py_getitem candidates 0 ;;
  loser <- py_getitem candidates (-1) ;;
  ret (mkTally candidates winner loser all_people).

(** [run_election], from the parsed settings up to the report of the
    winner and the loser. *)
Definition run_election (settings : Settings.t) (rng : RNG) : result Tally :=
  match build settings rng with
  | (inl e, _) => inl e
  | (inr (issues, candidates, populations), _) =>
      st <- vote_populations populations candidates [] ;;
      rank (fst st) (snd st)
  end.

Local Close Scope py_scope.

(** ** Vocabulary of the statements *)

(** Two view lists are issue-aligned when, at every position both have,
    the two views name the same issue. *)
Definition aligned (a b : list View.t) : Prop :=
  forall i x y,
    nth_error a i = Some x -> nth_error b i = Some y ->
    View.issue_name x = View.issue_name y.


(** Position [i] is one where the voter's view and the candidate's view
    hold the same stance. *)
Definition agree_at (vviews cviews : list View.t) (i : nat) : bool :=
  match nth_error vviews i, nth_error cviews i with
  | Some a, Some b => stance_eqb (View.stance a) (View.stance b)
  | _, _ => false
  end.



Definition total_votes (candidates : list Candidate.t) : nat :=
  list_sum (map Candidate.votes candidates).

(** How many of [people] hold stance [s] in their view at position [i]. *)
Definition count_stance (people : list Person.t) (i : nat) (s : string) : nat :=
  length (filter (fun p =>
                    match nth_error (Person.views p) i with
                    | Some v => stance_eqb (View.stance v) (Some s)
                    | None => false
                    end) people).

(** The number of voters a settings document asks for. *)
Definition electorate (pop_settings : list PopulationSetting.t) : nat :=
  list_sum (map (fun pop => Z.to_nat (PopulationSetting.size pop)) pop_settings).

(** [d.keys()] *)
Definition dict_keys {V : Type} (d : dict V) : list string := map fst d.

(** The [IssueVotes] object of [issue] whose tally of stance [k] is
    [count k]. *)
Definition tallied (issue : Issue.t) (count : string -> nat) : IssueVotes.t :=
  IssueVotes.mk issue
    (map (fun k => (k, count k)) (dict_keys (dict_fromkeys (Issue.stances issue) 0))).

(** A view holds a stance that its issue declares. *)
Definition declared (v : View.t) : Prop :=
  exists s, View.stance v = Some s /\ In s (Issue.stances (View.issue v)).

(** A voter of the registry [issues]: the view at position [i] is on
    issue [i], and every view holds a declared stance. *)
Definition voter_of (issues : list Issue.t) (p : Person.t) : Prop :=
  (exists k, map View.issue (Person.views p) = firstn k issues) /\
  Forall declared (Person.views p).

(** A decision procedure for [aligned]. *)
Definition alignedb (a b : list View.t) : bool :=
  forallb (fun z => String.eqb (View.issue_name (fst z)) (View.issue_name (snd z)))
          (combine a b).

(** ** A small election

    Two issues, three candidates, one population of two voters.  Bob
    declares no view on parks. *)

Definition ex_settings : Settings.t :=
  Settings.mk
    [IssueSetting.mk "tax" ["cut"; "raise"]%string;
     IssueSetting.mk "parks" ["more"; "fewer"]%string]
    [CandidateSetting.mk "Alice"
       [CandidateViewSetting.mk "tax" "cut"; CandidateViewSetting.mk "parks" "more"];
     CandidateSetting.mk "Bob"
       [CandidateViewSetting.mk "tax" "raise"];
     CandidateSetting.mk "Carol"
       [CandidateViewSetting.mk "parks" "more"; CandidateViewSetting.mk "tax" "cut"]]
    [PopulationSetting.mk "town" 2
       [IssueViewSetting.mk "tax" 1%Q 1%Q
          [("cut", (1 # 2)%Q); ("raise", (1 # 2)%Q)]%string;
        IssueViewSetting.mk "parks" 1%Q 1%Q
          [("more", (1 # 2)%Q); ("fewer", (1 # 2)%Q)]%string]].

(** The draws: the first voter picks the first stance on both issues
    (more parks, a tax cut), the second the second stance on both; the
    second normal draw is negative. *)
Definition ex_rng : RNG :=
  mkRNG (fun n => nth n [0; 0; 1; 1] 0)
        (fun n => nth n [1%Q; (-1)%Q; 2%Q; 3%Q] 0%Q).

Definition ex_parks : Issue.t := Issue.mk "parks" ["more"; "fewer"]%string.
Definition ex_tax : Issue.t := Issue.mk "tax" ["cut"; "raise"]%string.

Definition ex_population_views : list PopulationView.t :=
  [PopulationView.mk ex_parks
     [("more", (1 # 2)%Q); ("fewer", (1 # 2)%Q)]%string 1%Q 1%Q;
   PopulationView.mk ex_tax
     [("cut", (1 # 2)%Q); ("raise", (1 # 2)%Q)]%string 1%Q 1%Q].

(** A voter who cares about parks twice as much as about tax. *)
Definition ex_voter : Person.t :=
  Person.mk [View.mk ex_parks (Some "more"%string) 1%Q;
             View.mk ex_tax (Some "cut"%string) (1 # 2)%Q].

Definition ex_voter2 : Person.t :=
  Person.mk [View.mk ex_parks (Some "fewer"%string) 2%Q;
             View.mk ex_tax (Some "cut"%string) 3%Q].

Definition ex_alice : Candidate.t :=
  Candidate.mk [View.mk ex_parks (Some "more"%string) 1%Q;
                View.mk ex_tax (Some "raise"%string) 1%Q] 0 "Alice".

Definition ex_bob : Candidate.t :=
  Candidate.mk [View.mk ex_parks (Some "more"%string) 1%Q;
                View.mk ex_tax (Some "cut"%string) 1%Q] 0 "Bob".

Definition ex_carol : Candidate.t :=
  Candidate.mk [View.mk ex_parks (Some "more"%string) 1%Q;
                View.mk ex_tax (Some "cut"%string) 1%Q] 0 "Carol".

(** A candidate constructed with a view on tax only: its first view
    meets the voters' view on parks. *)
Definition ex_dave : Candidate.t :=
  Candidate.init "Dave" [View.init ex_tax (Some "cut"%string) 1%Q].

(** ** The agreement report

    [analyze_results] builds one number per voter, the number of
    positions at which the voter and the candidate hold the same stance,
    and hands the list to pandas for [describe()].  The list is what is
    embedded; the summary statistics are pandas' own. *)

(** The inner loop of [analyze_results], over
    [zip(person.views, candidate.views)], with its counter. *)
Fixpoint count_agreements (zs : list (View.t * View.t)) (agreements : nat) : nat :=
  match zs with
  | [] => agreements
  | (pv, cv) :: zs' =>
      count_agreements zs'
        (if stance_eqb (View.stance pv) (View.stance cv)
         then agreements + 1
         else agreements)
  end.

(** [people_agreements_with_cand], the data of the series. *)
Definition analyze_results (people : list Person.t) (candidate : Candidate.t)
    : list nat :=
  map (fun person =>
         count_agreements (combine (Person.views person) (Candidate.views candidate)) 0)
      people.



(** The number of positions at which two view lists agree. *)
Definition agreeing_positions (pviews cviews : list View.t) : nat :=
  length (filter (agree_at pviews cviews) (seq 0 (length pviews))).

(** The proportions of the second population view are for parks only by
    name: they lack the stances of tax. *)
Definition ex_undrawable_views : list PopulationView.t :=
  [PopulationView.mk ex_parks
     [("more", (1 # 2)%Q); ("fewer", (1 # 2)%Q)]%string 1%Q 1%Q;
   PopulationView.mk ex_tax
     [("cut", 1%Q)]%string 1%Q 1%Q].

(** The small election without candidates, and without voters. *)
Definition ex_no_candidates : Settings.t :=
  Settings.mk (Settings.issues ex_settings) [] (Settings.populations ex_settings).

Definition ex_no_voters : Settings.t :=
  Settings.mk (Settings.issues ex_settings) (Settings.candidates ex_settings)
    [PopulationSetting.mk "ghost town" (-3)
       [IssueViewSetting.mk "tax" 1%Q 1%Q
          [("cut", (1 # 2)%Q); ("raise", (1 # 2)%Q)]%string]].

(** ** Facts about [sorted] *)

Section SortedFacts.

Context {A K : Type}.
Variable key : A -> K.
Variable lt : K -> K -> bool.

Lemma insert_In (x y : A) (l : list A) :
  In y (insert key lt x l) <-> y = x \/ In y l.
Proof.
  induction l as [|z l IH]; simpl.
  - intuition congruence.
  - destruct (lt (key z) (key x)); simpl; rewrite ?IH; intuition congruence.
Qed.

Lemma sorted_In (y : A) (l : list A) : In y (sorted key lt l) <-> In y l.
Proof.
  induction l as [|x l IH]; simpl; [tauto|].
  rewrite insert_In, IH. intuition congruence.
Qed.

Lemma insert_length (x : A) (l : list A) :
  length (insert key lt x l) = S (length l).
Proof.
  induction l as [|z l IH]; simpl; [reflexivity|].
  destruct (lt (key z) (key x)); simpl; congruence.
Qed.

Lemma sorted_length (l : list A) : length (sorted key lt l) = length l.
Proof.
  induction l as [|x l IH]; simpl; [reflexivity|].
  rewrite insert_length. congruence.
Qed.

Lemma sorted_reverse_length (l : list A) :
  length (sorted_reverse key lt l) = length l.
Proof.
  unfold sorted_reverse. now rewrite length_rev, sorted_length, length_rev.
Qed.


(** Inserting below everything appends. *)
Lemma insert_above (x : A) (l : list A) :
  Forall (fun y => lt (key y) (key x) = true) l ->
  insert key lt x l = l ++ [x].
Proof.
  induction 1 as [|y l Hy _ IH]; simpl; [reflexivity|].
  now rewrite Hy, IH.
Qed.

(** Inserting keeps a last element that is not below the new one. *)
Lemma insert_keeps_last (x z : A) (l : list A) :
  lt (key z) (key x) = false ->
  exists front, insert key lt x (l ++ [z]) = front ++ [z].
Proof.
  intros Hz. induction l as [|y l [front IH]]; simpl.
  - rewrite Hz. now exists [x].
  - destruct (lt (key y) (key x)).
    + rewrite IH. now exists (y :: front).
    + now exists (x :: y :: l).
Qed.

(** A list that already respects the order is left alone. *)
Lemma sorted_ascending_id (l : list A) : ascending key lt l -> sorted key lt l = l.
Proof.
  induction l as [|x l IH]; simpl; [reflexivity|].
  intros [Hx Hl]. rewrite (IH Hl).
  destruct l as [|y l]; simpl; [reflexivity|].
  now rewrite Hx.
Qed.

Lemma ascending_firstn (n : nat) (l : list A) :
  ascending key lt l -> ascending key lt (firstn n l).
Proof.
  revert l. induction n as [|n IH]; intros [|x l]; simpl; auto.
  intros [Hx Hl]. split; [|now apply IH].
  destruct l as [|y l]; destruct n; simpl; auto.
Qed.

Hypothesis lt_asym : forall a b, lt a b = true -> lt b a = false.

Lemma insert_ascending (x : A) (l : list A) :
  ascending key lt l -> ascending key lt (insert key lt x l).
Proof.
  induction l as [|y l IH]; simpl; [auto|].
  intros [Hy Hl].
  destruct (lt (key y) (key x)) eqn:E.
  - split; [|now apply IH].
    destruct l as [|z l]; simpl.
    + now apply lt_asym.
    + destruct (lt (key z) (key x)); [assumption|now apply lt_asym].
  - simpl. auto.
Qed.

Lemma sorted_ascending (l : list A) : ascending key lt (sorted key lt l).
Proof.
  induction l as [|x l IH]; simpl; [exact I|].
  now apply insert_ascending.
Qed.

Hypothesis lt_trans : forall a b c, lt a b = true -> lt b c = true -> lt a c = true.
Hypothesis lt_negtrans : forall a b c, lt a b = false -> lt b c = false -> lt a c = false.

(** The key of the least element, earliest first: everything before it
    is strictly above, nothing after it is below. *)
Lemma sorted_head (l : list A) :
  l <> [] ->
  exists x rest l1 l2,
    sorted key lt l = x :: rest /\ l = l1 ++ x :: l2 /\
    Forall (fun y => lt (key x) (key y) = true) l1 /\
    Forall (fun y => lt (key y) (key x) = false) l2.
Proof.
  induction l as [|x l IH]; [congruence|]. intros _. simpl.
  assert (D : l = [] \/ l <> []) by (destruct l; [left|right]; congruence).
  destruct D as [->|Hne].
  - exists x, [], [], []. simpl. auto.
  - destruct (IH Hne) as (z & rest & l1 & l2 & Hs & Hl & H1 & H2).
    rewrite Hs. simpl. destruct (lt (key z) (key x)) eqn:E.
    + exists z, (insert key lt x rest), (x :: l1), l2.
      rewrite Hl. repeat split; auto.
    + exists x, (z :: rest), [], l. repeat split; auto.
      rewrite Hl. apply Forall_app. split.
      * eapply Forall_impl; [|exact H1]. intros y Hy. simpl in Hy.
        destruct (lt (key y) (key x)) eqn:F; [|reflexivity].
        rewrite (lt_trans _ _ _ Hy F) in E. discriminate.
      * constructor; [assumption|].
        eapply Forall_impl; [|exact H2]. intros y Hy. simpl in Hy.
        now apply (lt_negtrans _ _ _ Hy E).
Qed.

(** The greatest element, latest first: nothing before it is above,
    everything after it is strictly below. *)
Lemma sorted_last (l : list A) :
  l <> [] ->
  exists x front l1 l2,
    sorted key lt l = front ++ [x] /\ l = l1 ++ x :: l2 /\
    Forall (fun y => lt (key x) (key y) = false) l1 /\
    Forall (fun y => lt (key y) (key x) = true) l2.
Proof.
  induction l as [|x l IH]; [congruence|]. intros _. simpl.
  assert (D : l = [] \/ l <> []) by (destruct l; [left|right]; congruence).
  destruct D as [->|Hne].
  - exists x, [], [], []. simpl. auto.
  - destruct (IH Hne) as (z & front & l1 & l2 & Hs & Hl & H1 & H2).
    rewrite Hs. destruct (lt (key z) (key x)) eqn:E.
    + exists x, (front ++ [z]), [], l. repeat split; auto.
      * apply insert_above. rewrite <- Hs.
        apply Forall_forall. intros y Hy. apply (proj1 (sorted_In _ _)) in Hy.
        rewrite Hl in Hy. apply in_app_or in Hy.
        destruct Hy as [Hy|[Hy|Hy]].
        -- rewrite Forall_forall in H1. specialize (H1 _ Hy). simpl in H1.
           destruct (lt (key y) (key x)) eqn:F; [reflexivity|].
           rewrite (lt_negtrans _ _ _ H1 F) in E. discriminate.
        -- now subst y.
        -- rewrite Forall_forall in H2. eapply lt_trans; [apply H2, Hy|exact E].
      * rewrite Hl. apply Forall_forall. intros y Hy. apply in_app_or in Hy.
        destruct Hy as [Hy|[Hy|Hy]].
        -- rewrite Forall_forall in H1. specialize (H1 _ Hy). simpl in H1.
           destruct (lt (key y) (key x)) eqn:F; [reflexivity|].
           rewrite (lt_negtrans _ _ _ H1 F) in E. discriminate.
        -- now subst y.
        -- rewrite Forall_forall in H2. eapply lt_trans; [apply H2, Hy|exact E].
    + destruct (insert_keeps_last x z front E) as [front' Hf].
      exists z, front', (x :: l1), l2. rewrite Hf, Hl. repeat split; auto.
Qed.

(** With [reverse=True] the first element is the earliest greatest. *)
Lemma sorted_reverse_head (l : list A) :
  l <> [] ->
  exists x rest l1 l2,
    sorted_reverse key lt l = x :: rest /\ l = l1 ++ x :: l2 /\
    Forall (fun y => lt (key y) (key x) = true) l1 /\
    Forall (fun y => lt (key x) (key y) = false) l2.
Proof.
  intros Hl. unfold sorted_reverse.
  destruct (sorted_last (rev l)) as (x & front & m1 & m2 & Hs & Hm & H1 & H2).
  - intros E. apply Hl. rewrite <- (rev_involutive l), E. reflexivity.
  - exists x, (rev front), (rev m2), (rev m1). rewrite Hs.
    rewrite rev_app_distr. simpl. repeat split.
    + rewrite <- (rev_involutive l), Hm, rev_app_distr. simpl.
      now rewrite <- app_assoc.
    + now apply Forall_rev.
    + now apply Forall_rev.
Qed.

(** ... and the last element is the latest least. *)
Lemma sorted_reverse_last (l : list A) :
  l <> [] ->
  exists x front l1 l2,
    sorted_reverse key lt l = front ++ [x] /\ l = l1 ++ x :: l2 /\
    Forall (fun y => lt (key y) (key x) = false) l1 /\
    Forall (fun y => lt (key x) (key y) = true) l2.
Proof.
  intros Hl. unfold sorted_reverse.
  destruct (sorted_head (rev l)) as (x & rest & m1 & m2 & Hs & Hm & H1 & H2).
  - intros E. apply Hl. rewrite <- (rev_involutive l), E. reflexivity.
  - exists x, (rev rest), (rev m2), (rev m1). rewrite Hs. simpl. repeat split.
    + rewrite <- (rev_involutive l), Hm, rev_app_distr. simpl.
      now rewrite <- app_assoc.
    + now apply Forall_rev.
    + now apply Forall_rev.
Qed.

End SortedFacts.

(** ** The three orders the module sorts by *)

Lemma Qltb_lt (x y : Q) : Qltb x y = true <-> (x < y)%Q.
Proof.
  unfold Qltb. rewrite negb_true_iff. split.
  - intros H. apply Qnot_le_lt. intros L.
    apply Qle_bool_iff in L. congruence.
  - intros H. destruct (Qle_bool y x) eqn:E; [|reflexivity].
    apply Qle_bool_iff in E. exfalso. now apply (Qlt_not_le x y).
Qed.

Lemma Qltb_ge (x y : Q) : Qltb x y = false <-> (y <= x)%Q.
Proof.
  unfold Qltb. rewrite negb_false_iff. apply Qle_bool_iff.
Qed.

Lemma Qltb_trans (a b c : Q) : Qltb a b = true -> Qltb b c = true -> Qltb a c = true.
Proof. rewrite !Qltb_lt. apply Qlt_trans. Qed.

Lemma Qltb_negtrans (a b c : Q) :
  Qltb a b = false -> Qltb b c = false -> Qltb a c = false.
Proof. rewrite !Qltb_ge. intros H1 H2. now apply Qle_trans with b. Qed.

Lemma ltb_trans (a b c : nat) : (a <? b) = true -> (b <? c) = true -> (a <? c) = true.
Proof. rewrite !Nat.ltb_lt. lia. Qed.

Lemma ltb_negtrans (a b c : nat) :
  (a <? b) = false -> (b <? c) = false -> (a <? c) = false.
Proof. rewrite !Nat.ltb_ge. lia. Qed.

Lemma string_ltb_asym (a b : string) : String.ltb a b = true -> String.ltb b a = false.
Proof.
  unfold String.ltb. rewrite (String.compare_antisym a b).
  destruct (String.compare b a); simpl; congruence.
Qed.

Lemma stance_eqb_sym (a b : option string) : stance_eqb a b = stance_eqb b a.
Proof.
  destruct a, b; simpl; auto using String.eqb_sym.
Qed.

Lemma stance_eqb_eq (a b : option string) : stance_eqb a b = true <-> a = b.
Proof.
  destruct a, b; simpl; try (split; congruence).
  rewrite String.eqb_eq. split; congruence.
Qed.

(** ** Scoring one candidate *)

Lemma filter_map_comm {X Y : Type} (f : Y -> bool) (g : X -> Y) (l : list X) :
  filter f (map g l) = map g (filter (fun x => f (g x)) l).
Proof.
  induction l as [|x l IH]; simpl; [reflexivity|].
  destruct (f (g x)); simpl; now rewrite IH.
Qed.

Lemma aligned_tail (a b : View.t) (cv vv : list View.t) :
  aligned (a :: cv) (b :: vv) -> aligned cv vv.
Proof.
  intros H i x y Hx Hy. exact (H (S i) x y Hx Hy).
Qed.

Lemma aligned_head (a b : View.t) (cv vv : list View.t) :
  aligned (a :: cv) (b :: vv) -> View.issue_name a = View.issue_name b.
Proof.
  intros H. exact (H 0 a b eq_refl eq_refl).
Qed.




(** The inner loop raises nothing but [Exception], and only on a pair of
    views that name different issues. *)
Lemma score_views_raises (cv vv : list View.t) (acc : Q) (e : PyExn) :
  Person.score_views (combine cv vv) acc = inl e ->
  e = Exception /\
  exists i a b,
    nth_error cv i = Some a /\ nth_error vv i = Some b /\
    View.issue_name a <> View.issue_name b.
Proof.
  revert vv acc. induction cv as [|a cv IH]; intros [|b vv] acc; simpl;
    try discriminate.
  destruct (String.eqb_spec (View.issue_name a) (View.issue_name b)) as [E|N];
    simpl.
  - intros H. destruct (IH _ _ H) as (He & i & x & y & Hx & Hy & Hn).
    split; [exact He|]. now exists (S i), x, y.
  - intros H. injection H as <-. split; [reflexivity|].
    now exists 0, a, b.
Qed.

Lemma score_views_mismatch (cv vv : list View.t) (i : nat) (a b : View.t) :
  nth_error cv i = Some a -> nth_error vv i = Some b ->
  View.issue_name a <> View.issue_name b ->
  forall acc, Person.score_views (combine cv vv) acc = inl Exception.
Proof.
  revert vv i. induction cv as [|x cv IH]; intros [|y vv] [|i]; simpl;
    try discriminate.
  - intros Ha Hb N acc. injection Ha as ->. injection Hb as ->.
    apply String.eqb_neq in N. now rewrite N.
  - intros Ha Hb N acc.
    destruct (String.eqb (View.issue_name x) (View.issue_name y)); simpl;
      [|reflexivity].
    eapply IH; eassumption.
Qed.

Lemma score_aligned (self : Person.t) (c : Candidate.t) :
  aligned (Candidate.views c) (Person.views self) ->
  exists s, Person.score self c = inr s.
Proof.
  intros Hal. unfold Person.score.
  destruct (Person.score_views _ _) as [e|s] eqn:E; [|now exists s].
  destruct (score_views_raises _ _ _ _ E) as (_ & i & a & b & Ha & Hb & N).
  exfalso. apply N. exact (Hal i a b Ha Hb).
Qed.

(** ** The outer loop of [vote] *)

(** When the loop returns, it has appended one entry per candidate, in
    order: entry [k] refers to the candidate at position [pos + k] and
    holds that candidate's score. *)
Lemma score_candidates_returns (self : Person.t) (candidates : list Candidate.t) :
  forall pos acc r,
    Person.score_candidates self candidates pos acc = inr r ->
    exists ags,
      r = acc ++ ags /\
      Forall2 (fun c a => Person.score self c = inr (agreements a)) candidates ags /\
      map candidate ags = seq pos (length candidates).
Proof.
  induction candidates as [|c cs IH]; intros pos acc r; simpl.
  - intros E. injection E as <-. exists []. rewrite app_nil_r. auto.
  - destruct (Person.score self c) as [e|s] eqn:Es; [discriminate|].
    intros E. destruct (IH _ _ _ E) as (ags & -> & HF & Hm).
    exists (mk_c_agreements pos s :: ags). rewrite <- app_assoc. simpl.
    repeat split; [|now rewrite Hm]. constructor; assumption.
Qed.

Lemma score_candidates_raises (self : Person.t) (candidates : list Candidate.t) :
  forall pos acc e,
    Person.score_candidates self candidates pos acc = inl e ->
    e = Exception /\
    Exists (fun c => Person.score self c = inl Exception) candidates.
Proof.
  induction candidates as [|c cs IH]; intros pos acc e; simpl; [discriminate|].
  destruct (Person.score self c) as [e'|s] eqn:Es.
  - intros E. injection E as <-.
    destruct (score_views_raises _ _ _ _ Es) as [-> _]. auto.
  - intros E. destruct (IH _ _ _ E) as [-> HE]. auto.
Qed.

Lemma score_candidates_mismatch (self : Person.t) (candidates : list Candidate.t)
    (c : Candidate.t) :
  In c candidates -> Person.score self c = inl Exception ->
  forall pos acc, Person.score_candidates self candidates pos acc = inl Exception.
Proof.
  induction candidates as [|c' cs IH]; simpl; [tauto|].
  intros [->|Hin] Hc pos acc.
  - now rewrite Hc.
  - destruct (Person.score self c') as [e|s] eqn:Es.
    + now destruct (score_views_raises _ _ _ _ Es) as [-> _].
    + now apply IH.
Qed.

(** ** Running a method on one object of a list *)

Lemma method_at_app {X : Type} (f : X -> X) (l1 l2 : list X) (x : X) :
  method_at (length l1) f (l1 ++ x :: l2) = l1 ++ f x :: l2.
Proof.
  induction l1 as [|y l1 IH]; simpl; [reflexivity|]. now rewrite IH.
Qed.


Lemma method_at_map {X Y : Type} (f : X -> X) (g : X -> Y) (l : list X) (k : nat) :
  (forall x, g (f x) = g x) -> map g (method_at k f l) = map g l.
Proof.
  intros H. revert k. induction l as [|x l IH]; intros [|k]; simpl; auto.
  - now rewrite H.
  - now rewrite IH.
Qed.

Lemma method_at_length {X : Type} (f : X -> X) (l : list X) (k : nat) :
  length (method_at k f l) = length l.
Proof.
  revert k. induction l as [|x l IH]; intros [|k]; simpl; auto.
Qed.


Lemma py_getitem_first {X : Type} (x : X) (l : list X) : py_getitem (x :: l) 0 = inr x.
Proof.
  unfold py_getitem. cbn [Z.ltb Z.compare]. cbn [length].
  destruct (Z.leb_spec (Z.of_nat (S (length l))) 0) as [H|H]; [lia|].
  reflexivity.
Qed.

Lemma py_getitem_last {X : Type} (x : X) (l : list X) :
  py_getitem (l ++ [x]) (-1) = inr x.
Proof.
  unfold py_getitem. cbn [Z.ltb Z.compare]. rewrite length_app. cbn [length].
  replace (-1 + Z.of_nat (length l + 1))%Z with (Z.of_nat (length l)) by lia.
  destruct (Z.ltb_spec (Z.of_nat (length l)) 0) as [H|H]; [lia|].
  destruct (Z.leb_spec (Z.of_nat (length l + 1)) (Z.of_nat (length l))) as [H'|H'];
    [lia|].
  cbn [orb]. rewrite Nat2Z.id, nth_error_app2, Nat.sub_diag by lia.
  reflexivity.
Qed.


(** ** [Person.vote] *)

Lemma scores_before (self : Person.t) (x : c_agreements) (cs : list Candidate.t)
    (ags : list c_agreements) :
  Forall2 (fun c a => Person.score self c = inr (agreements a)) cs ags ->
  Forall (fun y => Qltb (agreements y) (agreements x) = true) ags ->
  Forall (fun c => exists t, Person.score self c = inr t /\ (t < agreements x)%Q) cs.
Proof.
  induction 1 as [|c a cs ags Hc _ IH]; intros HF; constructor.
  - inversion HF; subst. exists (agreements a). split; [exact Hc|].
    now apply Qltb_lt.
  - inversion HF; subst. now apply IH.
Qed.

Lemma scores_after (self : Person.t) (x : c_agreements) (cs : list Candidate.t)
    (ags : list c_agreements) :
  Forall2 (fun c a => Person.score self c = inr (agreements a)) cs ags ->
  Forall (fun y => Qltb (agreements x) (agreements y) = false) ags ->
  Forall (fun c => exists t, Person.score self c = inr t /\ (t <= agreements x)%Q) cs.
Proof.
  induction 1 as [|c a cs ags Hc _ IH]; intros HF; constructor.
  - inversion HF; subst. exists (agreements a). split; [exact Hc|].
    now apply Qltb_ge.
  - inversion HF; subst. now apply IH.
Qed.

Lemma position_of_entry (l1 l2 : list c_agreements) (x : c_agreements) (n : nat) :
  map candidate (l1 ++ x :: l2) = seq 0 n -> candidate x = length l1.
Proof.
  intros H.
  assert (E : nth_error (map candidate (l1 ++ x :: l2)) (length l1)
              = Some (candidate x)).
  { rewrite map_app, nth_error_app2 by (rewrite length_map; lia).
    rewrite length_map, Nat.sub_diag. reflexivity. }
  rewrite H in E.
  assert (L : length l1 < n).
  { apply (f_equal (@length nat)) in H.
    rewrite length_map, length_app, length_seq in H. simpl in H. lia. }
  rewrite nth_error_nth' with (d := 0) in E by (rewrite length_seq; exact L).
  rewrite seq_nth in E by exact L. simpl in E. congruence.
Qed.

(** On aligned candidates the call returns, and the vote goes to the
    earliest candidate of maximal score. *)
Lemma vote_aligned (self : Person.t)
    (candidates : list Candidate.t) :
  candidates <> [] ->
  Forall (fun c => aligned (Candidate.views c) (Person.views self)) candidates ->
  exists before chosen after s,
    candidates = before ++ chosen :: after /\
    Person.score self chosen = inr s /\
    Forall (fun c => exists t, Person.score self c = inr t /\ (t < s)%Q) before /\
    Forall (fun c => exists t, Person.score self c = inr t /\ (t <= s)%Q) after /\
    Person.vote self candidates
      = (inr tt, (self, before ++ Candidate.receive_vote chosen :: after)) /\
    Candidate.votes (Candidate.receive_vote chosen) = Candidate.votes chosen + 1 /\
    Candidate.views (Candidate.receive_vote chosen) = Candidate.views chosen /\
    Candidate.name (Candidate.receive_vote chosen) = Candidate.name chosen.
Proof.
  intros Hne Hal. unfold Person.vote.
  destruct (Person.score_candidates self candidates 0 []) as [e|r] eqn:E.
  - exfalso. destruct (score_candidates_raises _ _ _ _ _ E) as [_ HE].
    apply Exists_exists in HE. destruct HE as (c & Hin & Hc).
    rewrite Forall_forall in Hal.
    destruct (score_aligned self c (Hal c Hin)) as [s Hs]. congruence.
  - destruct (score_candidates_returns _ _ _ _ _ E) as (ags & -> & HF & Hm).
    simpl in *.
    assert (Hags : ags <> []).
    { intros ->. inversion HF. congruence. }
    destruct (sorted_reverse_head agreements Qltb Qltb_trans Qltb_negtrans ags Hags)
      as (x & rest & l1 & l2 & Hs & Hl & H1 & H2).
    rewrite Hs, py_getitem_first. subst ags.
    apply Forall2_app_inv_r in HF.
    destruct HF as (c1 & c2 & HF1 & HF2 & ->).
    inversion HF2 as [|c a c2' l2' Hc HF2' Ec Ea]; subst.
    exists c1, c, c2', (agreements x).
    rewrite (position_of_entry _ _ _ _ Hm).
    rewrite <- (Forall2_length HF1), method_at_app.
    repeat split; auto.
    + eapply scores_before; eassumption.
    + eapply scores_after; eassumption.
Qed.




(** C8. If, for some candidate of the list, some position that both view
    lists have holds two views naming different issues, [vote] raises
    [Exception]: the scoring loop returns no list of scores, no vote is
    cast, and the voter and every candidate are as they were. *)
Theorem vote_raises_on_issue_mismatch (self : Person.t)
    (candidates : list Candidate.t) (c : Candidate.t) (i : nat) (a b : View.t) :
  In c candidates ->
  nth_error (Candidate.views c) i = Some a ->
  nth_error (Person.views self) i = Some b ->
  View.issue_name a <> View.issue_name b ->
  Person.score_candidates self candidates 0 [] = inl Exception /\
  Person.vote self candidates = (inl Exception, (self, candidates)).
Proof.
  intros Hin Ha Hb N.
  assert (Hc : Person.score self c = inl Exception).
  { unfold Person.score. eapply score_views_mismatch; eassumption. }
  assert (E := score_candidates_mismatch self candidates c Hin Hc 0 []).
  split; [exact E|]. unfold Person.vote. now rewrite E.
Qed.

(** C9. On an empty candidate list [vote] raises [IndexError], for every
    voter: the subscript [agreements[0]] of the empty sorted list fails,
    and nothing before it checks that a candidate exists. *)
Theorem vote_without_candidates_raises_IndexError (self : Person.t) :
  Person.score_candidates self [] 0 [] = inr [] /\
  Person.vote self [] = (inl IndexError, (self, [])).
Proof.
  split; reflexivity.
Qed.


(** ** Generating a voter *)

Lemma py_max0_clamps (x : Q) :
  (0 <= py_max0 x)%Q /\
  ((0 < x)%Q -> py_max0 x = x) /\
  ((x <= 0)%Q -> py_max0 x = 0%Q).
Proof.
  unfold py_max0. destruct (Qltb 0 x) eqn:E.
  - apply Qltb_lt in E. repeat split; auto using Qlt_le_weak.
    intros H. exfalso. now apply (Qlt_not_le 0 x).
  - apply Qltb_ge in E. repeat split; auto using Qle_refl.
    intros H. exfalso. now apply (Qlt_not_le 0 x).
Qed.

(** One turn of the loop: the view is on the population view's issue,
    its stance is one the issue declares, and its weight is the clamped
    next normal draw. *)
Lemma decide_view_returns (i : PopulationView.t) (r r' : RNG) (v : View.t) :
  Person.decide_view i r = (inr v, r') ->
  View.issue v = PopulationView.issue i /\
  (exists s, View.stance v = Some s /\ In s (Issue.stances (View.issue v))) /\
  View.weight v = py_max0 (normals r 0) /\
  (forall n, normals r' n = normals r (S n)).
Proof.
  unfold Person.decide_view, gbind, lift, np_random_choice, np_random_normal, gret.
  destruct (list_comp _ _) as [e|probabilities]; [discriminate|].
  destruct (Issue.stances (PopulationView.issue i)) as [|s0 rest] eqn:Es;
    [discriminate|].
  intros H. injection H as <- <-. simpl. rewrite Es.
  repeat split; auto.
  exists (nth (choices r 0 mod length (s0 :: rest)) (s0 :: rest) s0).
  split; [reflexivity|]. apply nth_In.
  apply Nat.mod_upper_bound. discriminate.
Qed.

Lemma decide_views_returns (population_views : list PopulationView.t) :
  forall views r r' vs,
    Person._decide_views population_views views r = (inr vs, r') ->
    exists new,
      vs = views ++ new /\
      map View.issue new = map PopulationView.issue population_views /\
      (forall k v, nth_error new k = Some v ->
                   View.weight v = py_max0 (normals r k) /\
                   exists s, View.stance v = Some s /\
                             In s (Issue.stances (View.issue v))) /\
      (forall n, normals r' n = normals r (length population_views + n)).
Proof.
  induction population_views as [|i rest IH]; intros views r r' vs; simpl.
  - unfold gret. intros H. injection H as <- <-. exists [].
    rewrite app_nil_r. split; [reflexivity|]. split; [reflexivity|].
    split; [|auto]. intros [|k] v; discriminate.
  - unfold gbind at 1. destruct (Person.decide_view i r) as [[e|v] r1] eqn:E;
      [discriminate|].
    destruct (decide_view_returns _ _ _ _ E) as (Hi & Hs & Hw & Hn).
    intros H. destruct (IH _ _ _ _ H) as (new & -> & Hmap & Hnth & Hn').
    exists (v :: new). rewrite <- app_assoc. simpl.
    split; [reflexivity|]. split; [now rewrite Hi, Hmap|]. split.
    + intros [|k] w Hk; simpl in Hk.
      * injection Hk as <-. auto.
      * destruct (Hnth _ _ Hk) as [Hw' Hs']. split; [|exact Hs'].
        now rewrite Hw', Hn.
    + intros n. now rewrite Hn', Hn.
Qed.

(** C7. Every view of a generated voter carries as weight one of the
    normal draws made for that voter, clamped below at [0]: the draw
    itself when it is positive and [0] otherwise; so every stored weight
    is at least [0], whatever the draws were. *)
Theorem sampled_weights_are_clamped_draws (population_views : list PopulationView.t)
    (rng rng' : RNG) (p : Person.t) :
  Person.init population_views rng = (inr p, rng') ->
  Forall (fun v =>
            (exists k, k < length population_views /\
                       View.weight v = py_max0 (normals rng k)) /\
            (0 <= View.weight v)%Q)
         (Person.views p) /\
  (forall x, (0 <= py_max0 x)%Q /\
             ((0 < x)%Q -> py_max0 x = x) /\
             ((x <= 0)%Q -> py_max0 x = 0%Q)).
Proof.
  intros H. split; [|exact py_max0_clamps].
  unfold Person.init, gbind in H.
  destruct (Person._decide_views population_views [] rng) as [[e|vs] r1] eqn:E;
    [discriminate|].
  unfold gret in H. injection H as <- <-. simpl.
  destruct (decide_views_returns _ _ _ _ _ E) as (new & -> & Hmap & Hnth & _).
  simpl. apply Forall_forall. intros v Hv.
  apply (proj1 (sorted_In _ _ _ _)) in Hv.
  apply In_nth_error in Hv. destruct Hv as [k Hk].
  destruct (Hnth _ _ Hk) as [Hw _]. split.
  - exists k. split; [|exact Hw].
    apply (f_equal (@length Issue.t)) in Hmap. rewrite !length_map in Hmap.
    rewrite <- Hmap. apply nth_error_Some. congruence.
  - rewrite Hw. apply py_max0_clamps.
Qed.

(** ** Alignment is established by the build phase

    Every view list the build phase produces is laid over a prefix of
    the registry: the view at position [i] is on the registry's issue
    [i].  Two such lists are aligned with each other. *)

Lemma ascending_map {X Y K : Type} (g : X -> Y) (key : Y -> K)
    (lt : K -> K -> bool) (l : list X) :
  ascending key lt (map g l) -> ascending (fun x => key (g x)) lt l.
Proof.
  induction l as [|x l IH]; simpl; [auto|].
  intros [Hx Hl]. split; [|now apply IH].
  destruct l; simpl in *; auto.
Qed.

Lemma map_snd_combine {X Y : Type} (l1 : list X) (l2 : list Y) :
  map snd (combine l1 l2) = firstn (length l1) l2.
Proof.
  revert l2. induction l1 as [|x l1 IH]; intros [|y l2]; simpl; auto.
  now rewrite IH.
Qed.

Lemma nth_error_firstn_Some {X : Type} (k i : nat) (l : list X) (x : X) :
  nth_error (firstn k l) i = Some x -> nth_error l i = Some x.
Proof.
  revert i l. induction k as [|k IH]; intros [|i] [|y l]; simpl;
    try discriminate; auto.
Qed.

Lemma prefixes_aligned (issues : list Issue.t) (a b : list View.t) (k m : nat) :
  map View.issue a = firstn k issues ->
  map View.issue b = firstn m issues ->
  aligned a b.
Proof.
  intros Ha Hb i x y Hx Hy.
  apply (map_nth_error View.issue) in Hx, Hy.
  rewrite Ha in Hx. rewrite Hb in Hy.
  apply nth_error_firstn_Some in Hx, Hy.
  unfold View.issue_name. congruence.
Qed.

Lemma generate_issues_ascending (issue_settings : list IssueSetting.t) :
  ascending Issue.name String.ltb (generate_issues issue_settings).
Proof.
  unfold generate_issues. apply sorted_ascending. exact string_ltb_asym.
Qed.

(** Sorting by issue name leaves views alone that lie over a prefix of an
    ascending registry. *)
Lemma sorted_views_over_prefix (issues : list Issue.t) (views : list View.t)
    (k : nat) :
  ascending Issue.name String.ltb issues ->
  map View.issue views = firstn k issues ->
  sorted View.issue_name String.ltb views = views.
Proof.
  intros Hasc Hmap. apply sorted_ascending_id.
  apply (ascending_map View.issue Issue.name). rewrite Hmap.
  now apply ascending_firstn.
Qed.

(** What [generate_candidates] gives one candidate. *)
Lemma generate_candidates_views (issues : list Issue.t)
    (candidate_settings : list CandidateSetting.t) :
  ascending Issue.name String.ltb issues ->
  Forall2 (fun c cand =>
             let cviews :=
               sorted CandidateViewSetting.issue String.ltb (CandidateSetting.views c) in
             Candidate.name cand = CandidateSetting.name c /\
             Candidate.votes cand = 0 /\
             map View.issue (Candidate.views cand)
               = firstn (length (CandidateSetting.views c)) issues /\
             map View.stance (Candidate.views cand)
               = firstn (length issues)
                   (map (fun v => Some (CandidateViewSetting.stance v)) cviews))
          candidate_settings (generate_candidates candidate_settings issues).
Proof.
  intros Hasc. unfold generate_candidates.
  induction candidate_settings as [|c cs IH]; simpl; constructor; [|exact IH].
  set (cviews := sorted CandidateViewSetting.issue String.ltb (CandidateSetting.views c)).
  set (views := map _ (combine cviews issues)).
  assert (Hi : map View.issue views = firstn (length (CandidateSetting.views c)) issues).
  { unfold views. rewrite map_map.
    rewrite <- (sorted_length CandidateViewSetting.issue String.ltb).
    fold cviews. rewrite <- map_snd_combine.
    apply map_ext. now intros [v i]. }
  simpl. rewrite (sorted_views_over_prefix issues views _ Hasc Hi).
  repeat split; [exact Hi|].
  unfold views. rewrite map_map. clearbody cviews. clear.
  revert issues. induction cviews as [|v cviews IH]; intros [|i issues]; simpl; auto.
  now rewrite IH.
Qed.

Lemma generate_candidates_length (issues : list Issue.t)
    (candidate_settings : list CandidateSetting.t) :
  length (generate_candidates candidate_settings issues) = length candidate_settings.
Proof.
  unfold generate_candidates. apply length_map.
Qed.

(** A voter built from population views over a registry prefix is a voter
    of the registry. *)
Lemma Person_init_views (issues : list Issue.t) (k : nat)
    (population_views : list PopulationView.t) (r r' : RNG) (p : Person.t) :
  ascending Issue.name String.ltb issues ->
  map PopulationView.issue population_views = firstn k issues ->
  Person.init population_views r = (inr p, r') ->
  voter_of issues p.
Proof.
  intros Hasc Hk H. unfold Person.init, gbind in H.
  destruct (Person._decide_views population_views [] r) as [[e|vs] r1] eqn:E;
    [discriminate|].
  unfold gret in H. injection H as <- <-. unfold voter_of. simpl.
  destruct (decide_views_returns _ _ _ _ _ E) as (new & -> & Hmap & Hnth & _).
  simpl. rewrite Hk in Hmap.
  rewrite (sorted_views_over_prefix issues new k Hasc Hmap).
  split; [now exists k|].
  apply Forall_forall. intros v Hv. apply In_nth_error in Hv.
  destruct Hv as [j Hj]. now destruct (Hnth _ _ Hj).
Qed.

Lemma generate_loop_returns (issues : list Issue.t) (k : nat)
    (population_views : list PopulationView.t) :
  ascending Issue.name String.ltb issues ->
  map PopulationView.issue population_views = firstn k issues ->
  forall n people r r' ps,
    Population.generate_loop n population_views people r = (inr ps, r') ->
    exists new,
      ps = people ++ new /\ length new = n /\ Forall (voter_of issues) new.
Proof.
  intros Hasc Hk. induction n as [|n IH]; intros people r r' ps; simpl.
  - unfold gret. intros H. injection H as <- <-. exists [].
    rewrite app_nil_r. auto.
  - unfold gbind at 1.
    destruct (Person.init population_views r) as [[e|p] r1] eqn:E; [discriminate|].
    intros H. destruct (IH _ _ _ _ H) as (new & -> & Hlen & HF).
    exists (p :: new). rewrite <- app_assoc. simpl. repeat split; auto.
    constructor; [|exact HF].
    eapply Person_init_views; eassumption.
Qed.

(** What [generate_populations] returns: one population per entry, of the
    size asked for, all of whose members are voters of the registry. *)
Lemma generate_populations_returns (issues : list Issue.t) :
  ascending Issue.name String.ltb issues ->
  forall pop_settings r r' populations,
    generate_populations pop_settings issues r = (inr populations, r') ->
    Forall2 (fun pop p =>
               length (Population.people p) = Z.to_nat (PopulationSetting.size pop) /\
               Forall (voter_of issues) (Population.people p))
            pop_settings populations.
Proof.
  intros Hasc. induction pop_settings as [|pop rest IH]; intros r r' populations;
    simpl.
  - unfold gret. intros H. injection H as <- <-. constructor.
  - unfold gbind at 1. unfold Population.init, Population._generate_people.
    unfold gbind at 1.
    match goal with
    | |- context [Population.generate_loop ?n ?pvs [] r] =>
        destruct (Population.generate_loop n pvs [] r) as [[e|people] r1] eqn:E;
          [discriminate|];
        assert (Hp : map PopulationView.issue pvs
                     = firstn (length (PopulationSetting.issue_views pop)) issues)
    end.
    { rewrite map_map.
      rewrite <- (sorted_length IssueViewSetting.name String.ltb).
      rewrite <- map_snd_combine. apply map_ext. now intros [v i]. }
    destruct (generate_loop_returns issues _ _ Hasc Hp _ _ _ _ _ E)
      as (new & -> & Hlen & HF).
    unfold gret at 1. unfold gbind at 1.
    destruct (generate_populations rest issues r1) as [[e|ps] r2] eqn:E2;
      [discriminate|].
    unfold gret. intros H. injection H as <- <-.
    constructor; [|eapply IH; exact E2].
    simpl. split; [exact Hlen|exact HF].
Qed.

(** ** [sorted] permutes and orders *)

Section SortedOrder.

Context {A K : Type}.
Variable key : A -> K.
Variable lt : K -> K -> bool.

Lemma insert_Permutation (x : A) (l : list A) :
  Permutation (insert key lt x l) (x :: l).
Proof.
  induction l as [|y l IH]; simpl; [reflexivity|].
  destruct (lt (key y) (key x)); [|reflexivity].
  rewrite IH. apply perm_swap.
Qed.

Lemma sorted_Permutation (l : list A) : Permutation (sorted key lt l) l.
Proof.
  induction l as [|x l IH]; simpl; [reflexivity|].
  rewrite insert_Permutation. now constructor.
Qed.

Lemma sorted_reverse_Permutation (l : list A) :
  Permutation (sorted_reverse key lt l) l.
Proof.
  unfold sorted_reverse.
  rewrite <- Permutation_rev, sorted_Permutation, <- Permutation_rev.
  reflexivity.
Qed.

Hypothesis lt_asym : forall a b, lt a b = true -> lt b a = false.
Hypothesis lt_negtrans : forall a b c, lt a b = false -> lt b c = false -> lt a c = false.

Lemma insert_StronglySorted (x : A) (l : list A) :
  StronglySorted (fun a b => lt (key b) (key a) = false) l ->
  StronglySorted (fun a b => lt (key b) (key a) = false) (insert key lt x l).
Proof.
  induction 1 as [|y l Hl IH Hy]; simpl.
  - repeat constructor.
  - destruct (lt (key y) (key x)) eqn:E.
    + constructor; [exact IH|].
      apply Forall_forall. intros z Hz. apply insert_In in Hz.
      destruct Hz as [->|Hz]; [now apply lt_asym|].
      rewrite Forall_forall in Hy. now apply Hy.
    + constructor; [now constructor|].
      constructor; [exact E|].
      eapply Forall_impl; [|exact Hy]. intros z Hz. simpl in Hz.
      now apply (lt_negtrans _ _ _ Hz E).
Qed.

Lemma sorted_StronglySorted (l : list A) :
  StronglySorted (fun a b => lt (key b) (key a) = false) (sorted key lt l).
Proof.
  induction l as [|x l IH]; simpl; [constructor|].
  now apply insert_StronglySorted.
Qed.

Lemma StronglySorted_snoc (R : A -> A -> Prop) (l : list A) (x : A) :
  StronglySorted R l -> Forall (fun y => R y x) l -> StronglySorted R (l ++ [x]).
Proof.
  induction 1 as [|y l Hl IH Hy]; intros HF; simpl.
  - repeat constructor.
  - inversion HF; subst. constructor; [now apply IH|].
    apply Forall_app. split; [exact Hy|]. now constructor.
Qed.

Lemma StronglySorted_rev (R : A -> A -> Prop) (l : list A) :
  StronglySorted R l -> StronglySorted (fun a b => R b a) (rev l).
Proof.
  induction 1 as [|y l Hl IH Hy]; simpl; [constructor|].
  apply StronglySorted_snoc; [exact IH|].
  now apply Forall_rev.
Qed.

(** With [reverse=True] no element is followed by one with a greater key. *)
Lemma sorted_reverse_descending (l : list A) :
  StronglySorted (fun a b => lt (key a) (key b) = false) (sorted_reverse key lt l).
Proof.
  unfold sorted_reverse.
  apply (StronglySorted_rev (fun a b => lt (key b) (key a) = false)).
  apply sorted_StronglySorted.
Qed.

End SortedOrder.

Lemma ltb_asym (a b : nat) : (a <? b) = true -> (b <? a) = false.
Proof. rewrite Nat.ltb_lt, Nat.ltb_ge. lia. Qed.

Lemma total_votes_Permutation (l l' : list Candidate.t) :
  Permutation l l' -> total_votes l = total_votes l'.
Proof.
  unfold total_votes. induction 1; simpl; lia.
Qed.

Lemma total_votes_app (l l' : list Candidate.t) :
  total_votes (l ++ l') = total_votes l + total_votes l'.
Proof.
  unfold total_votes. now rewrite map_app, list_sum_app.
Qed.

(** ** The ranking *)

Lemma StronglySorted_weaken {X : Type} (R R' : X -> X -> Prop) (l : list X) :
  (forall a b, R a b -> R' a b) -> StronglySorted R l -> StronglySorted R' l.
Proof.
  intros H. induction 1 as [|x l Hl IH Hx]; constructor; [exact IH|].
  eapply Forall_impl; [|exact Hx]. intros b. apply H.
Qed.

(** On a non-empty list the ranking returns: a descending permutation,
    whose first element is the earliest candidate with the most votes and
    whose last element is the latest candidate with the fewest. *)
Lemma rank_returns (candidates : list Candidate.t) (people : list Person.t) :
  candidates <> [] ->
  exists t,
    rank candidates people = inr t /\
    ranking t = sorted_reverse Candidate.votes Nat.ltb candidates /\
    all_people t = people /\
    Permutation (ranking t) candidates /\
    StronglySorted (fun a b => Candidate.votes b <= Candidate.votes a) (ranking t) /\
    (exists l1 l2,
        candidates = l1 ++ winner t :: l2 /\
        Forall (fun c => Candidate.votes c < Candidate.votes (winner t)) l1 /\
        Forall (fun c => Candidate.votes c <= Candidate.votes (winner t)) l2) /\
    (exists l1 l2,
        candidates = l1 ++ loser t :: l2 /\
        Forall (fun c => Candidate.votes (loser t) <= Candidate.votes c) l1 /\
        Forall (fun c => Candidate.votes (loser t) < Candidate.votes c) l2).
Proof.
  intros Hne. unfold rank.
  destruct (sorted_reverse_head Candidate.votes Nat.ltb ltb_trans ltb_negtrans
              candidates Hne) as (w & rest & w1 & w2 & Hw & Hcw & Hw1 & Hw2).
  destruct (sorted_reverse_last Candidate.votes Nat.ltb ltb_trans ltb_negtrans
              candidates Hne) as (l & front & m1 & m2 & Hl & Hcl & Hm1 & Hm2).
  assert (G0 : py_getitem (sorted_reverse Candidate.votes Nat.ltb candidates) 0
               = inr w) by (rewrite Hw; apply py_getitem_first).
  assert (G1 : py_getitem (sorted_reverse Candidate.votes Nat.ltb candidates) (-1)
               = inr l) by (rewrite Hl; apply py_getitem_last).
  rewrite G0. cbn [bind]. rewrite G1. cbn [bind ret].
  eexists. split; [reflexivity|]. cbn [ranking winner loser all_people].
  split; [reflexivity|]. split; [reflexivity|].
  split; [apply sorted_reverse_Permutation|].
  split.
  { eapply StronglySorted_weaken;
      [|apply (sorted_reverse_descending Candidate.votes Nat.ltb ltb_asym ltb_negtrans)].
    intros a b H. simpl in H. apply Nat.ltb_ge in H. exact H. }
  split.
  - exists w1, w2. split; [exact Hcw|]. split.
    + eapply Forall_impl; [|exact Hw1]. intros c H. now apply Nat.ltb_lt.
    + eapply Forall_impl; [|exact Hw2]. intros c H. now apply Nat.ltb_ge.
  - exists m1, m2. split; [exact Hcl|]. split.
    + eapply Forall_impl; [|exact Hm1]. intros c H. now apply Nat.ltb_ge.
    + eapply Forall_impl; [|exact Hm2]. intros c H. now apply Nat.ltb_lt.
Qed.

(** C6. On a non-empty list of candidates the ranking is the list
    reordered by descending vote count.  The winner has the greatest
    count and, among the candidates with that count, is the earliest of
    the list: all before it have strictly fewer votes.  The loser has the
    least count and, among the candidates with that count, is the latest
    of the list: all after it have strictly more votes. *)
Theorem winner_is_earliest_maximum_loser_is_latest_minimum
    (candidates : list Candidate.t) (people : list Person.t) :
  candidates <> [] ->
  exists t,
    rank candidates people = inr t /\
    Permutation (ranking t) candidates /\
    StronglySorted (fun a b => Candidate.votes b <= Candidate.votes a) (ranking t) /\
    (exists l1 l2,
        candidates = l1 ++ winner t :: l2 /\
        Forall (fun c => Candidate.votes c < Candidate.votes (winner t)) l1 /\
        Forall (fun c => Candidate.votes c <= Candidate.votes (winner t)) l2) /\
    (exists l1 l2,
        candidates = l1 ++ loser t :: l2 /\
        Forall (fun c => Candidate.votes (loser t) <= Candidate.votes c) l1 /\
        Forall (fun c => Candidate.votes (loser t) < Candidate.votes c) l2).
Proof.
  intros Hne.
  destruct (rank_returns candidates people Hne)
    as (t & Hr & _ & _ & Hp & Hs & Hw & Hl).
  exists t. auto.
Qed.

(** ** The voting pass *)

Lemma vote_people_returns (people : list Person.t) :
  forall candidates done,
    candidates <> [] ->
    Forall (fun p =>
              Forall (fun cv => aligned cv (Person.views p))
                     (map Candidate.views candidates)) people ->
    exists candidates',
      vote_people people candidates done = inr (candidates', done ++ people) /\
      total_votes candidates' = total_votes candidates + length people /\
      map Candidate.views candidates' = map Candidate.views candidates /\
      candidates' <> [].
Proof.
  induction people as [|p ps IH]; intros candidates done Hne Hal; simpl.
  - exists candidates. rewrite app_nil_r. repeat split; auto.
  - inversion Hal as [|p' ps' Hp Hps]; subst.
    rewrite Forall_map in Hp.
    destruct (vote_aligned p candidates Hne Hp)
      as (before & chosen & after & s & -> & _ & _ & _ & Hv & Hvotes & Hviews & _).
    rewrite Hv.
    destruct (IH (before ++ Candidate.receive_vote chosen :: after) (done ++ [p]))
      as (candidates' & Hr & Ht & Hm & Hne').
    + now destruct before.
    + rewrite map_app in *. exact Hps.
    + exists candidates'. rewrite Hr, <- (app_assoc done [p] ps). simpl.
      repeat split; auto.
      * rewrite Ht, !total_votes_app. unfold total_votes. simpl. lia.
      * rewrite Hm, !map_app. reflexivity.
Qed.

Lemma vote_populations_returns (populations : list Population.t) :
  forall candidates done,
    candidates <> [] ->
    Forall (fun pop =>
              Forall (fun p =>
                        Forall (fun cv => aligned cv (Person.views p))
                               (map Candidate.views candidates))
                     (Population.people pop)) populations ->
    exists candidates',
      vote_populations populations candidates done
        = inr (candidates', done ++ concat (map Population.people populations)) /\
      total_votes candidates'
        = total_votes candidates
          + length (concat (map Population.people populations)) /\
      candidates' <> [].
Proof.
  induction populations as [|pop rest IH]; intros candidates done Hne Hal; simpl.
  - exists candidates. rewrite app_nil_r. repeat split; auto.
  - inversion Hal as [|pop' rest' Hp Hrest]; subst.
    destruct (vote_people_returns (Population.people pop) candidates done Hne Hp)
      as (c1 & Hr & Ht & Hm & Hne1).
    rewrite Hr. cbn [bind fst snd].
    destruct (IH c1 (done ++ Population.people pop) Hne1) as (c2 & Hr2 & Ht2 & Hne2).
    + now rewrite Hm.
    + exists c2. rewrite Hr2, <- (app_assoc done). repeat split; auto.
      rewrite Ht2, Ht, length_app. lia.
Qed.

Lemma generate_candidates_no_votes (issues : list Issue.t)
    (candidate_settings : list CandidateSetting.t) :
  total_votes (generate_candidates candidate_settings issues) = 0.
Proof.
  unfold total_votes, generate_candidates.
  induction candidate_settings as [|c cs IH]; simpl; auto.
Qed.

Lemma length_concat_people (pop_settings : list PopulationSetting.t)
    (populations : list Population.t) :
  Forall2 (fun pop p =>
             length (Population.people p) = Z.to_nat (PopulationSetting.size pop))
          pop_settings populations ->
  length (concat (map Population.people populations)) = electorate pop_settings.
Proof.
  unfold electorate. induction 1 as [|pop p pops ps Hp _ IH]; simpl; [reflexivity|].
  rewrite length_app, IH, Hp. reflexivity.
Qed.

(** C3. For every settings document with at least one candidate and
    every outcome of the random draws for which the build phase returns,
    the run goes through: no voter's [vote] raises, and when the winner
    and loser are reported the candidates' counters add up to the number
    of voters of all populations, which is the number the settings ask
    for. *)
Theorem vote_count_conservation (settings : Settings.t) (rng rng' : RNG)
    (issues : list Issue.t) (candidates : list Candidate.t)
    (populations : list Population.t) :
  Settings.candidates settings <> [] ->
  build settings rng = (inr (issues, candidates, populations), rng') ->
  exists t,
    run_election settings rng = inr t /\
    all_people t = concat (map Population.people populations) /\
    total_votes (ranking t) = length (all_people t) /\
    length (all_people t) = electorate (Settings.populations settings).
Proof.
  intros Hne Hb. unfold run_election. rewrite Hb.
  unfold build, gbind in Hb.
  destruct (generate_populations _ _ rng) as [[e|pops] r1] eqn:E; [discriminate|].
  unfold gret in Hb. injection Hb as <- <- <- <-.
  set (issues := generate_issues (Settings.issues settings)) in *.
  set (candidates := generate_candidates (Settings.candidates settings) issues).
  assert (Hasc := generate_issues_ascending (Settings.issues settings)).
  fold issues in Hasc.
  assert (HP := generate_populations_returns issues Hasc _ _ _ _ E).
  assert (HC := generate_candidates_views issues (Settings.candidates settings) Hasc).
  fold candidates in HC.
  assert (Hcne : candidates <> []).
  { intros E0. apply (f_equal (@length Candidate.t)) in E0.
    unfold candidates in E0. rewrite generate_candidates_length in E0.
    destruct (Settings.candidates settings); [congruence|discriminate]. }
  destruct (vote_populations_returns pops candidates [] Hcne) as (c' & Hr & Ht & Hne').
  { clear - HP HC. apply Forall_forall. intros pop Hpop.
    apply Forall_forall. intros p Hp.
    apply Forall_forall. intros cv Hcv.
    apply in_map_iff in Hcv. destruct Hcv as (c & <- & Hc).
    assert (Hk : exists k, map View.issue (Candidate.views c) = firstn k issues).
    { clear - HC Hc. induction HC as [|x y xs ys Hxy _ IH]; [destruct Hc|].
      destruct Hc as [->|Hc]; [|now apply IH].
      destruct Hxy as (_ & _ & Hi & _). eexists. exact Hi. }
    assert (Hm : exists m, map View.issue (Person.views p) = firstn m issues).
    { clear - HP Hpop Hp. induction HP as [|x y xs ys Hxy _ IH]; [destruct Hpop|].
      destruct Hpop as [->|Hpop]; [|now apply IH].
      destruct Hxy as [_ HF]. rewrite Forall_forall in HF.
      exact (proj1 (HF p Hp)). }
    destruct Hk as [k Hk]. destruct Hm as [m Hm].
    eapply prefixes_aligned; eassumption. }
  rewrite Hr. cbn [bind fst snd app].
  destruct (rank_returns c' (concat (map Population.people pops)) Hne')
    as (t & Hrank & _ & Hall & Hperm & _).
  exists t. split; [exact Hrank|]. split; [exact Hall|]. split.
  - rewrite (total_votes_Permutation _ _ Hperm), Ht, Hall.
    unfold candidates. rewrite generate_candidates_no_votes. reflexivity.
  - rewrite Hall. apply length_concat_people.
    eapply Forall2_impl; [|exact HP]. intros a b [H _]. exact H.
Qed.

(** ** Dictionaries *)

Lemma dict_set_keys {V : Type} (d : dict V) (k : string) (v : V) :
  (In k (dict_keys d) -> dict_keys (dict_set d k v) = dict_keys d) /\
  (~ In k (dict_keys d) -> dict_keys (dict_set d k v) = dict_keys d ++ [k]).
Proof.
  induction d as [|[k' v'] d [IH1 IH2]]; simpl.
  - split; [tauto|reflexivity].
  - destruct (String.eqb_spec k' k) as [->|N]; simpl.
    + split; [reflexivity|tauto].
    + split; intros H.
      * rewrite IH1; [reflexivity|]. destruct H; congruence.
      * rewrite IH2; [reflexivity|]. tauto.
Qed.

Lemma dict_set_values {V : Type} (d : dict V) (k : string) (v : V) :
  Forall (fun kv => snd kv = v) d -> Forall (fun kv => snd kv = v) (dict_set d k v).
Proof.
  induction 1 as [|[k' v'] d Hx Hd IH]; simpl.
  - repeat constructor.
  - destruct (String.eqb k' k); constructor; auto.
Qed.

Lemma prefix_before {X : Type} (a b k1 k2 : list X) (s : X) :
  a ++ b = k1 ++ s :: k2 -> ~ In s a -> forall t, In t a -> In t k1.
Proof.
  revert k1. induction a as [|y a IH]; intros k1 E Hs t Ht; [destruct Ht|].
  destruct k1 as [|z k1]; simpl in E; injection E as -> E.
  - exfalso. apply Hs. now left.
  - destruct Ht as [->|Ht]; [now left|]. right.
    apply (IH k1 E); [|exact Ht]. intros H. apply Hs. now right.
Qed.

(** Filling a dictionary from a list of keys: the keys already present
    stay in front, no key is entered twice, and a key that is new stands
    behind every key listed before its first occurrence. *)
Lemma fromkeys_fold {V : Type} (v : V) (keys : list string) :
  forall d : dict V,
    NoDup (dict_keys d) ->
    let d' := fold_left (fun d s => dict_set d s v) keys d in
    (exists new, dict_keys d' = dict_keys d ++ new) /\
    NoDup (dict_keys d') /\
    (forall t, In t (dict_keys d') <-> In t (dict_keys d) \/ In t keys) /\
    (forall k1 s k2,
        dict_keys d' = k1 ++ s :: k2 -> ~ In s (dict_keys d) ->
        exists m1 m2, keys = m1 ++ s :: m2 /\ forall t, In t m1 -> In t k1).
Proof.
  induction keys as [|x keys IH]; intros d Hd; simpl.
  - split; [exists []; now rewrite app_nil_r|]. split; [exact Hd|].
    split; [tauto|]. intros k1 s k2 E Hs. exfalso. apply Hs.
    rewrite E. apply in_elt.
  - destruct (dict_set_keys d x v) as [K1 K2].
    assert (Hx : In x (dict_keys (dict_set d x v))).
    { destruct (in_dec string_dec x (dict_keys d)) as [H|H].
      - now rewrite K1.
      - rewrite K2 by exact H. apply in_or_app. right. now left. }
    assert (Hsub : forall t, In t (dict_keys (dict_set d x v))
                             <-> In t (dict_keys d) \/ t = x).
    { intros t. destruct (in_dec string_dec x (dict_keys d)) as [H|H].
      - rewrite K1 by exact H. split; [tauto|]. intros [H'|E]; [exact H'|now subst t].
      - rewrite K2 by exact H. rewrite in_app_iff. simpl.
        intuition congruence. }
    assert (Hd1 : NoDup (dict_keys (dict_set d x v))).
    { destruct (in_dec string_dec x (dict_keys d)) as [H|H].
      - now rewrite K1.
      - rewrite K2 by exact H. apply NoDup_app; auto.
        + repeat constructor. simpl. tauto.
        + intros a Ha [<-|Hf]; [contradiction|destruct Hf]. }
    destruct (IH (dict_set d x v) Hd1) as ([new Hnew] & Hnd & Hin & Hord).
    split; [|split; [exact Hnd|split]].
    + destruct (in_dec string_dec x (dict_keys d)) as [H|H].
      * exists new. now rewrite Hnew, K1.
      * exists (x :: new). rewrite Hnew, K2 by exact H.
        now rewrite <- app_assoc.
    + intros t. rewrite Hin, Hsub. intuition congruence.
    + intros k1 s k2 E Hs.
      destruct (string_dec s x) as [->|N].
      * exists [], keys. split; [reflexivity|]. intros t Hf. destruct Hf.
      * assert (Hs1 : ~ In s (dict_keys (dict_set d x v))).
        { rewrite Hsub. intros [H|H]; [contradiction|congruence]. }
        destruct (Hord k1 s k2 E Hs1) as (m1 & m2 & -> & Hm1).
        exists (x :: m1), m2. split; [reflexivity|].
        intros t [<-|Ht]; [|now apply Hm1].
        rewrite Hnew in E. eapply prefix_before; eassumption.
Qed.

Lemma fromkeys_values {V : Type} (v : V) (keys : list string) :
  Forall (fun kv => snd kv = v) (dict_fromkeys keys v).
Proof.
  unfold dict_fromkeys.
  assert (G : forall d : dict V,
             Forall (fun kv => snd kv = v) d ->
             Forall (fun kv => snd kv = v)
                    (fold_left (fun d s => dict_set d s v) keys d)).
  { induction keys as [|x keys IH]; intros d Hd; simpl; [exact Hd|].
    apply IH. now apply dict_set_values. }
  apply G. constructor.
Qed.

(** A dictionary laid out as a table [k |-> f k] over distinct keys. *)
Lemma table_get (f : string -> nat) (ks : list string) (s : string) :
  (In s ks -> dict_get (map (fun k => (k, f k)) ks) s = inr (f s)) /\
  (~ In s ks -> dict_get (map (fun k => (k, f k)) ks) s = inl KeyError).
Proof.
  induction ks as [|k ks [IH1 IH2]]; simpl.
  - split; [tauto|reflexivity].
  - destruct (String.eqb_spec k s) as [->|N].
    + split; [reflexivity|tauto].
    + split; intros H.
      * apply IH1. destruct H; congruence.
      * apply IH2. tauto.
Qed.

Lemma table_set (f : string -> nat) (ks : list string) (s : string) (v : nat) :
  NoDup ks -> In s ks ->
  dict_set (map (fun k => (k, f k)) ks) s v
  = map (fun k => (k, if String.eqb k s then v else f k)) ks.
Proof.
  induction 1 as [|k ks Hk Hnd IH]; simpl; [tauto|].
  destruct (String.eqb_spec k s) as [->|N]; intros Hin.
  - f_equal. apply map_ext_in. intros a Ha.
    destruct (String.eqb_spec a s) as [->|_]; [contradiction|reflexivity].
  - f_equal. apply IH. destruct Hin; congruence.
Qed.

(** ** The majority stance *)

(** The loop returns its start value when nothing exceeds [biggest];
    otherwise it returns the earliest key whose count is the greatest. *)
Lemma majority_loop_spec (kvs : list (string * nat)) :
  forall biggest maj_stance,
    (IssueVotes.majority_loop kvs biggest maj_stance = maj_stance /\
     Forall (fun kv => snd kv <= biggest) kvs) \/
    (exists l1 k v l2,
        kvs = l1 ++ (k, v) :: l2 /\
        IssueVotes.majority_loop kvs biggest maj_stance = Some k /\
        biggest < v /\
        Forall (fun kv => snd kv < v) l1 /\
        Forall (fun kv => snd kv <= v) l2).
Proof.
  induction kvs as [|[k v] kvs IH]; intros biggest maj_stance; simpl.
  - left. auto.
  - destruct (Nat.ltb_spec biggest v) as [L|L].
    + right. destruct (IH v (Some k)) as [[E HF]|(l1 & k' & v' & l2 & -> & E & Hv & H1 & H2)].
      * exists [], k, v, kvs. simpl. auto.
      * exists ((k, v) :: l1), k', v', l2. simpl. repeat split; auto.
        lia.
    + destruct (IH biggest maj_stance)
        as [[E HF]|(l1 & k' & v' & l2 & -> & E & Hv & H1 & H2)].
      * left. split; [exact E|]. constructor; auto.
      * right. exists ((k, v) :: l1), k', v', l2. simpl. repeat split; auto.
        constructor; [simpl; lia|exact H1].
Qed.

Lemma fromkeys_keys (stances : list string) :
  NoDup (dict_keys (dict_fromkeys stances 0)) /\
  (forall t, In t (dict_keys (dict_fromkeys stances 0)) <-> In t stances) /\
  (forall k1 s k2,
      dict_keys (dict_fromkeys stances 0) = k1 ++ s :: k2 ->
      exists m1 m2, stances = m1 ++ s :: m2 /\ forall t, In t m1 -> In t k1).
Proof.
  destruct (fromkeys_fold 0 stances [] (NoDup_nil _)) as (_ & Hnd & Hin & Hord).
  split; [exact Hnd|]. split.
  - intros t. rewrite (Hin t). simpl. tauto.
  - intros k1 s k2 E. apply (Hord k1 s k2 E). simpl. tauto.
Qed.

Lemma init_tallied (issue : Issue.t) :
  IssueVotes.init issue = tallied issue (fun _ => 0).
Proof.
  unfold IssueVotes.init, tallied, dict_keys. f_equal.
  assert (H := fromkeys_values 0 (Issue.stances issue)).
  induction H as [|[k v] d Hx _ IH]; simpl; [reflexivity|].
  simpl in Hx. subst v. now rewrite <- IH.
Qed.

(** One more vote for a stance, on a tallied object. *)
Lemma vote_for_stance_tallied (issue : Issue.t) (f : string -> nat)
    (stance : option string) (iv' : IssueVotes.t) :
  IssueVotes.vote_for_stance (tallied issue f) stance = inr iv' ->
  iv' = tallied issue
          (fun k => f k + (if stance_eqb stance (Some k) then 1 else 0)).
Proof.
  destruct stance as [s|]; [|discriminate]. simpl.
  destruct (fromkeys_keys (Issue.stances issue)) as (Hnd & _ & _).
  set (ks := dict_keys (dict_fromkeys (Issue.stances issue) 0)) in *.
  destruct (table_get f ks s) as [G1 G2].
  destruct (in_dec string_dec s ks) as [Hin|Hout].
  - rewrite (G1 Hin). unfold ret. intros E. injection E as <-.
    unfold tallied. fold ks. f_equal.
    rewrite (table_set f ks s (f s + 1) Hnd Hin).
    apply map_ext. intros k. rewrite (String.eqb_sym s k).
    destruct (String.eqb_spec k s) as [->|_]; [reflexivity|].
    now rewrite Nat.add_0_r.
  - rewrite (G2 Hout). discriminate.
Qed.

(** The inner tally loop touches position [i] exactly when the voter has
    a view at [i]. *)
Lemma tally_views_returns (views : list View.t) :
  forall issue_votes issue_votes',
    tally_views views issue_votes = inr issue_votes' ->
    length issue_votes' = length issue_votes /\
    forall i iv,
      nth_error issue_votes i = Some iv ->
      match nth_error views i with
      | Some v =>
          exists iv', nth_error issue_votes' i = Some iv' /\
                      IssueVotes.vote_for_stance iv (View.stance v) = inr iv'
      | None => nth_error issue_votes' i = Some iv
      end.
Proof.
  induction views as [|v vs IH]; intros [|iv ivs] r; simpl.
  - intros E. injection E as <-. split; [reflexivity|]. intros [|i]; discriminate.
  - intros E. injection E as <-. split; [reflexivity|].
    intros i x Hx. now destruct i.
  - intros E. injection E as <-. split; [reflexivity|]. intros [|i]; discriminate.
  - destruct (IssueVotes.vote_for_stance iv (View.stance v)) as [e|iv'] eqn:Ev;
      [discriminate|]. cbn [bind].
    destruct (tally_views vs ivs) as [e|ivs'] eqn:Et; [discriminate|]. cbn [bind ret].
    intros E. injection E as <-.
    destruct (IH _ _ Et) as [Hlen Hnth]. split; [simpl; now rewrite Hlen|].
    intros [|i] x Hx; simpl in *.
    + injection Hx as <-. now exists iv'.
    + now apply Hnth.
Qed.

Lemma count_stance_snoc (people : list Person.t) (p : Person.t) (i : nat) (s : string) :
  count_stance (people ++ [p]) i s
  = count_stance people i s
    + match nth_error (Person.views p) i with
      | Some v => if stance_eqb (View.stance v) (Some s) then 1 else 0
      | None => 0
      end.
Proof.
  unfold count_stance. rewrite filter_app, length_app. simpl.
  destruct (nth_error (Person.views p) i) as [v|]; [|reflexivity].
  now destruct (stance_eqb (View.stance v) (Some s)).
Qed.

(** The outer tally loop: after the voters [people], the object at
    position [i] holds, for every stance, the number of those voters
    whose view at [i] has that stance. *)
Lemma tally_people_returns (issues : list Issue.t) (people : list Person.t) :
  forall done issue_votes issue_votes',
    length issue_votes = length issues ->
    (forall i issue, nth_error issues i = Some issue ->
       nth_error issue_votes i = Some (tallied issue (count_stance done i))) ->
    tally_people people issue_votes = inr issue_votes' ->
    length issue_votes' = length issues /\
    forall i issue, nth_error issues i = Some issue ->
      nth_error issue_votes' i
      = Some (tallied issue (count_stance (done ++ people) i)).
Proof.
  induction people as [|p ps IH]; intros done ivs ivs' Hlen Hinv; simpl.
  - intros E. injection E as <-. rewrite app_nil_r. auto.
  - destruct (tally_views (Person.views p) ivs) as [e|ivs1] eqn:Et; [discriminate|].
    cbn [bind]. intros E.
    destruct (tally_views_returns _ _ _ Et) as [Hlen1 Hnth].
    replace (done ++ p :: ps) with ((done ++ [p]) ++ ps)
      by now rewrite <- app_assoc.
    apply (IH (done ++ [p]) ivs1 ivs'); [congruence| |exact E].
    intros i issue Hi. specialize (Hnth i _ (Hinv i issue Hi)).
    assert (Hsnoc : tallied issue (count_stance (done ++ [p]) i)
                    = tallied issue
                        (fun k => count_stance done i k
                                  + match nth_error (Person.views p) i with
                                    | Some v =>
                                        if stance_eqb (View.stance v) (Some k)
                                        then 1 else 0
                                    | None => 0
                                    end)).
    { unfold tallied. f_equal. apply map_ext. intros k.
      now rewrite count_stance_snoc. }
    rewrite Hsnoc.
    destruct (nth_error (Person.views p) i) as [v|].
    + destruct Hnth as (iv' & Hiv' & Hv). rewrite Hiv'. f_equal.
      exact (vote_for_stance_tallied _ _ _ _ Hv).
    + rewrite Hnth. unfold tallied. f_equal. f_equal.
      apply map_ext. intros k. now rewrite Nat.add_0_r.
Qed.

Lemma table_split (f : string -> nat) (ks : list string)
    (l1 l2 : list (string * nat)) (s : string) (n : nat) :
  map (fun k => (k, f k)) ks = l1 ++ (s, n) :: l2 ->
  exists k1 k2,
    ks = k1 ++ s :: k2 /\ n = f s /\
    l1 = map (fun k => (k, f k)) k1 /\ l2 = map (fun k => (k, f k)) k2.
Proof.
  intros E. apply map_eq_app in E. destruct E as (k1 & k2' & -> & <- & E).
  apply map_eq_cons in E. destruct E as (k & k2 & -> & E & <-).
  injection E as -> <-. now exists k1, k2.
Qed.

(** After the tally over [people], the majority stance of the object at
    position [i] is the earliest declared stance with the greatest count
    of voters, and [None] when no voter holds a declared stance. *)
Lemma majority_stance_after_tally (people : list Person.t)
    (issues : list Issue.t) (issue_votes : list IssueVotes.t) :
  tally_people people (map IssueVotes.init issues) = inr issue_votes ->
  generate_majority_candidate people issues
  = inr (Candidate.init "majority"
           (map (fun '(i, iv) => View.init i (IssueVotes.get_majority_stance iv) 1%Q)
                (combine issues issue_votes))) /\
  forall i issue,
    nth_error issues i = Some issue ->
    exists iv,
      nth_error issue_votes i = Some iv /\
      IssueVotes.issue iv = issue /\
      match IssueVotes.get_majority_stance iv with
      | Some s =>
          0 < count_stance people i s /\
          exists m1 m2,
            Issue.stances issue = m1 ++ s :: m2 /\
            Forall (fun t => count_stance people i t < count_stance people i s) m1 /\
            Forall (fun t => count_stance people i t <= count_stance people i s) m2
      | None =>
          forall s, In s (Issue.stances issue) -> count_stance people i s = 0
      end /\
      ((forall s, In s (Issue.stances issue) -> count_stance people i s = 0) ->
       IssueVotes.get_majority_stance iv = None).
Proof.
  intros Ht. split.
  { unfold generate_majority_candidate. now rewrite Ht. }
  intros i issue Hi.
  destruct (tally_people_returns issues people [] (map IssueVotes.init issues)
              issue_votes) as [_ Hnth].
  - apply length_map.
  - intros j x Hj. rewrite (map_nth_error _ _ _ Hj). f_equal. apply init_tallied.
  - exact Ht.
  - specialize (Hnth i issue Hi). simpl in Hnth.
    exists (tallied issue (count_stance people i)).
    split; [exact Hnth|]. split; [reflexivity|].
    match goal with
    | |- ?M /\ _ => assert (HM : M); [|split; [exact HM|]]
    end.
    2: { intros Hz.
         destruct (IssueVotes.get_majority_stance (tallied issue (count_stance people i)))
           as [s|]; [exfalso|reflexivity].
         destruct HM as (Hpos & m1 & m2 & Hm & _).
         rewrite (Hz s) in Hpos; [lia|]. rewrite Hm. apply in_elt. }
    destruct (fromkeys_keys (Issue.stances issue)) as (Hnd & Hin & Hord).
    unfold IssueVotes.get_majority_stance, items. cbn [tallied IssueVotes.stance_votes].
    set (ks := dict_keys (dict_fromkeys (Issue.stances issue) 0)) in *.
    set (f := count_stance people i).
    destruct (majority_loop_spec (map (fun k => (k, f k)) ks) 0 None)
      as [[E HF]|(l1 & k & v & l2 & Es & E & Hv & H1 & H2)]; rewrite E.
    + intros s Hs. apply Hin in Hs. rewrite Forall_forall in HF.
      specialize (HF (s, f s) (in_map (fun k => (k, f k)) ks s Hs)).
      simpl in HF. lia.
    + destruct (table_split f ks l1 l2 k v Es) as (k1 & k2 & Hks & -> & -> & ->).
      split; [exact Hv|].
      destruct (Hord k1 k k2 Hks) as (m1 & m2 & Hm & Hm1).
      exists m1, m2. split; [exact Hm|].
      rewrite Forall_map in H1, H2. simpl in H1, H2.
      rewrite Forall_forall in H1, H2. split; apply Forall_forall; intros t Hin'.
      * apply H1. now apply Hm1.
      * assert (Ht' : In t ks).
        { apply Hin. rewrite Hm. apply in_or_app. right. now right. }
        rewrite Hks in Ht'. apply in_app_or in Ht'.
        destruct Ht' as [Ht'|[<-|Ht']].
        -- apply Nat.lt_le_incl. now apply H1.
        -- apply Nat.le_refl.
        -- now apply H2.
Qed.

(** The tally raises for no voter of the registry. *)
Lemma vote_for_stance_returns (issue : Issue.t) (f : string -> nat) (s : string) :
  In s (Issue.stances issue) ->
  exists iv', IssueVotes.vote_for_stance (tallied issue f) (Some s) = inr iv'.
Proof.
  intros Hs. simpl.
  destruct (fromkeys_keys (Issue.stances issue)) as (_ & Hin & _).
  destruct (table_get f (dict_keys (dict_fromkeys (Issue.stances issue) 0)) s)
    as [G _].
  rewrite (G (proj2 (Hin s) Hs)). eexists. reflexivity.
Qed.

Lemma tally_views_succeeds (views : list View.t) :
  forall issue_votes,
    (forall i v iv,
        nth_error views i = Some v -> nth_error issue_votes i = Some iv ->
        declared v /\ exists f, iv = tallied (View.issue v) f) ->
    exists issue_votes', tally_views views issue_votes = inr issue_votes'.
Proof.
  induction views as [|v vs IH]; intros [|iv ivs] H; simpl;
    try (eexists; reflexivity).
  destruct (H 0 v iv eq_refl eq_refl) as [(s & Hs & Hin) [f ->]].
  rewrite Hs. destruct (vote_for_stance_returns (View.issue v) f s Hin) as [iv' ->].
  cbn [bind]. destruct (IH ivs) as [ivs' ->].
  - intros i x y Hx Hy. exact (H (S i) x y Hx Hy).
  - eexists. reflexivity.
Qed.

Lemma tally_people_succeeds (issues : list Issue.t) (people : list Person.t) :
  Forall (voter_of issues) people ->
  forall done issue_votes,
    length issue_votes = length issues ->
    (forall i issue, nth_error issues i = Some issue ->
       nth_error issue_votes i = Some (tallied issue (count_stance done i))) ->
    exists issue_votes', tally_people people issue_votes = inr issue_votes'.
Proof.
  induction 1 as [|p ps [[k Hk] Hd] _ IH]; intros done ivs Hlen Hinv; simpl.
  - eexists. reflexivity.
  - destruct (tally_views_succeeds (Person.views p) ivs) as [ivs1 Et].
    { intros i v iv Hv Hiv. rewrite Forall_forall in Hd.
      split; [apply Hd; eapply nth_error_In; exact Hv|].
      assert (Hi : nth_error issues i = Some (View.issue v)).
      { apply (map_nth_error View.issue) in Hv. rewrite Hk in Hv.
        now apply nth_error_firstn_Some in Hv. }
      rewrite (Hinv i _ Hi) in Hiv. injection Hiv as <-. eexists. reflexivity. }
    rewrite Et. cbn [bind].
    destruct (tally_people_returns issues [p] done ivs ivs1 Hlen Hinv) as [Hlen1 Hinv1].
    { simpl. now rewrite Et. }
    exact (IH (done ++ [p]) ivs1 Hlen1 Hinv1).
Qed.

(** C4. For every list of voters and every list of issues: the tally of
    [generate_majority_candidate] returns when the voters are voters of
    the registry; and whenever it returns, the stance given to the
    majority candidate on the issue at position [i] is decided by the
    numbers of voters holding each stance in their view at [i].  If
    [get_majority_stance] returns a stance, that stance has a positive
    count, every stance declared before its first occurrence in the
    issue's stance list has a strictly smaller count, and no declared
    stance has a greater one.  It returns [None] exactly when every
    declared stance has count [0]. *)
Theorem majority_stance_is_first_plurality (people : list Person.t)
    (issues : list Issue.t) :
  (Forall (voter_of issues) people ->
   exists issue_votes,
     tally_people people (map IssueVotes.init issues) = inr issue_votes) /\
  (forall issue_votes,
     tally_people people (map IssueVotes.init issues) = inr issue_votes ->
     generate_majority_candidate people issues
     = inr (Candidate.init "majority"
              (map (fun '(i, iv) =>
                      View.init i (IssueVotes.get_majority_stance iv) 1%Q)
                   (combine issues issue_votes))) /\
     forall i issue,
       nth_error issues i = Some issue ->
       exists iv,
         nth_error issue_votes i = Some iv /\
         IssueVotes.issue iv = issue /\
         match IssueVotes.get_majority_stance iv with
         | Some s =>
             0 < count_stance people i s /\
             exists m1 m2,
               Issue.stances issue = m1 ++ s :: m2 /\
               Forall (fun t => count_stance people i t < count_stance people i s) m1 /\
               Forall (fun t => count_stance people i t <= count_stance people i s) m2
         | None =>
             forall s, In s (Issue.stances issue) -> count_stance people i s = 0
         end /\
         ((forall s, In s (Issue.stances issue) -> count_stance people i s = 0) ->
          IssueVotes.get_majority_stance iv = None)).
Proof.
  split.
  - intros Hp.
    apply (tally_people_succeeds issues people Hp [] (map IssueVotes.init issues)).
    + apply length_map.
    + intros j x Hj. rewrite (map_nth_error _ _ _ Hj). f_equal. apply init_tallied.
  - intros issue_votes Ht.
    exact (majority_stance_after_tally people issues issue_votes Ht).
Qed.

(** Every run hands the synthesizer voters of the registry. *)
Lemma build_gives_voters_of_the_registry (settings : Settings.t) (rng rng' : RNG)
    (issues : list Issue.t) (candidates : list Candidate.t)
    (populations : list Population.t) :
  build settings rng = (inr (issues, candidates, populations), rng') ->
  Forall (voter_of issues) (concat (map Population.people populations)).
Proof.
  intros Hb. unfold build, gbind in Hb.
  destruct (generate_populations _ _ rng) as [[e|pops] r1] eqn:E; [discriminate|].
  unfold gret in Hb. injection Hb as <- <- <- <-.
  assert (HP := generate_populations_returns _
                  (generate_issues_ascending (Settings.issues settings)) _ _ _ _ E).
  clear E. induction HP as [|pop p pops' ps [_ HF] _ IH]; simpl; [constructor|].
  apply Forall_app. split; [exact HF|exact IH].
Qed.

(** ** What the build phase can raise *)

Lemma list_comp_get_raises {V : Type} (d : dict V) (keys : list string) (e : PyExn) :
  list_comp (fun j => dict_get d j) keys = inl e -> e = KeyError.
Proof.
  assert (G : forall k e', dict_get d k = inl e' -> e' = KeyError).
  { induction d as [|[k' v] d IH]; intros k e'; simpl.
    - intros H. now injection H as <-.
    - destruct (String.eqb k' k); [discriminate|apply IH]. }
  induction keys as [|k keys IH]; simpl; [discriminate|].
  destruct (dict_get d k) as [e'|v] eqn:E.
  - intros H. injection H as <-. exact (G _ _ E).
  - destruct (list_comp _ keys) as [e'|vs]; [|discriminate].
    intros H. injection H as <-. now apply IH.
Qed.

Lemma decide_view_raises (i : PopulationView.t) (r r' : RNG) (e : PyExn) :
  Person.decide_view i r = (inl e, r') -> e = KeyError \/ e = ValueError.
Proof.
  unfold Person.decide_view, gbind, lift, np_random_choice, np_random_normal, gret.
  destruct (list_comp _ _) as [e'|ps] eqn:L.
  - intros H. injection H as <- <-. left. exact (list_comp_get_raises _ _ _ L).
  - destruct (Issue.stances (PopulationView.issue i)); [|discriminate].
    intros H. injection H as <- <-. now right.
Qed.

Lemma decide_views_raises (population_views : list PopulationView.t) :
  forall views r r' e,
    Person._decide_views population_views views r = (inl e, r') ->
    e = KeyError \/ e = ValueError.
Proof.
  induction population_views as [|i rest IH]; intros views r r' e; simpl;
    [discriminate|].
  unfold gbind at 1. destruct (Person.decide_view i r) as [[e'|v] r1] eqn:E.
  - intros H. injection H as <- <-. exact (decide_view_raises _ _ _ _ E).
  - apply IH.
Qed.

Lemma generate_loop_raises (population_views : list PopulationView.t) (n : nat) :
  forall people r r' e,
    Population.generate_loop n population_views people r = (inl e, r') ->
    e = KeyError \/ e = ValueError.
Proof.
  induction n as [|n IH]; intros people r r' e; simpl; [discriminate|].
  unfold gbind at 1. destruct (Person.init population_views r) as [[e'|p] r1] eqn:E.
  - intros H. injection H as <- <-. unfold Person.init, gbind in E.
    destruct (Person._decide_views population_views [] r) as [[e''|vs] r2] eqn:D;
      [|discriminate].
    injection E as <- <-. exact (decide_views_raises _ _ _ _ _ D).
  - apply IH.
Qed.

Lemma generate_populations_raises (issues : list Issue.t)
    (pop_settings : list PopulationSetting.t) :
  forall r r' e,
    generate_populations pop_settings issues r = (inl e, r') ->
    e = KeyError \/ e = ValueError.
Proof.
  induction pop_settings as [|pop rest IH]; intros r r' e; simpl; [discriminate|].
  unfold gbind at 1. unfold Population.init, Population._generate_people.
  unfold gbind at 1.
  match goal with
  | |- context [Population.generate_loop ?n ?pvs [] r] =>
      destruct (Population.generate_loop n pvs [] r) as [[e'|people] r1] eqn:E
  end.
  - intros H. injection H as <- <-. exact (generate_loop_raises _ _ _ _ _ _ E).
  - unfold gret at 1. unfold gbind at 1.
    destruct (generate_populations rest issues r1) as [[e'|ps] r2] eqn:E2.
    + intros H. injection H as <- <-. exact (IH _ _ _ E2).
    + discriminate.
Qed.



(** C6 fails as stated for the loser: after the voting pass Bob and
    Carol both have no vote, Bob stands earlier in the list, and the
    loser reported is Carol. *)
Lemma loser_is_not_the_earliest_minimum :
  exists candidates people t,
    (let '(r, _) := build ex_settings ex_rng in
     match r with
     | inr (_, cs, pops) => vote_populations pops cs [] = inr (candidates, people)
     | inl _ => False
     end) /\
    rank candidates people = inr t /\
    run_election ex_settings ex_rng = inr t /\
    map (fun c => (Candidate.name c, Candidate.votes c)) candidates
    = [("Alice", 2); ("Bob", 0); ("Carol", 0)]%string /\
    Candidate.name (loser t) = "Carol"%string /\
    ~ (exists l1 l2,
          candidates = l1 ++ loser t :: l2 /\
          Forall (fun c => Candidate.votes (loser t) < Candidate.votes c) l1 /\
          Forall (fun c => Candidate.votes (loser t) <= Candidate.votes c) l2).
Proof.
  do 3 eexists. split; [vm_compute; reflexivity|].
  split; [vm_compute; reflexivity|].
  split; [vm_compute; reflexivity|].
  split; [reflexivity|]. split; [reflexivity|].
  intros (l1 & l2 & E & H1 & H2). cbn [loser] in *.
  destruct l1 as [|a [|b [|c l1]]]; simpl in E.
  - injection E as E _. discriminate E.
  - injection E as _ E _. discriminate E.
  - inversion H1 as [|? ? _ H1']; subst. inversion H1' as [|? ? Hb _]; subst.
    injection E as <- <- _. simpl in Hb. lia.
  - injection E as _ _ _ E.
    destruct l1; simpl in E; discriminate E.
Qed.

(** ** The statements at the small election *)

Lemma alignedb_sound (a b : list View.t) : alignedb a b = true -> aligned a b.
Proof.
  unfold alignedb. revert b.
  induction a as [|x a IH]; intros [|y b] H i u v Hu Hv;
    try (destruct i; discriminate).
  simpl in H. apply andb_true_iff in H. destruct H as [Hxy Hab].
  destruct i as [|i]; simpl in Hu, Hv.
  - injection Hu as <-. injection Hv as <-. now apply String.eqb_eq.
  - exact (IH b Hab i u v Hu Hv).
Qed.



(** The small election, run to the end. *)
Lemma vote_count_conservation_witness :
  Settings.candidates ex_settings <> [] /\
  exists t,
    run_election ex_settings ex_rng = inr t /\
    total_votes (ranking t) = length (all_people t) /\
    length (all_people t) = electorate (Settings.populations ex_settings).
Proof.
  assert (H1 : Settings.candidates ex_settings <> []) by discriminate.
  split; [exact H1|].
  destruct (build ex_settings ex_rng) as [[e|[[issues candidates] populations]] rng']
    eqn:Hb; [vm_compute in Hb; discriminate Hb|].
  destruct (vote_count_conservation ex_settings ex_rng rng' issues candidates
              populations H1 Hb) as (t & Hr & _ & Hv & Hn).
  exists t. auto.
Defined.

(** Both example voters want a tax cut. *)
Lemma majority_stance_witness :
  Forall (voter_of [ex_parks; ex_tax]) [ex_voter; ex_voter2] /\
  exists issue_votes,
    tally_people [ex_voter; ex_voter2] (map IssueVotes.init [ex_parks; ex_tax])
    = inr issue_votes /\
    exists iv,
      nth_error issue_votes 1 = Some iv /\
      IssueVotes.issue iv = ex_tax /\
      IssueVotes.get_majority_stance iv = Some "cut"%string.
Proof.
  assert (H1 : Forall (voter_of [ex_parks; ex_tax]) [ex_voter; ex_voter2]).
  { repeat constructor; try (exists 2; reflexivity);
      eexists; (split; [reflexivity|simpl; tauto]). }
  split; [exact H1|].
  destruct (majority_stance_is_first_plurality [ex_voter; ex_voter2]
              [ex_parks; ex_tax]) as [Hret Hrule].
  destruct (Hret H1) as [issue_votes Ht].
  exists issue_votes. split; [exact Ht|].
  destruct (Hrule issue_votes Ht) as [_ H].
  destruct (H 1 ex_tax eq_refl) as (iv & Hiv & Hissue & _).
  exists iv. split; [exact Hiv|]. split; [exact Hissue|].
  vm_compute in Ht. injection Ht as <-. vm_compute in Hiv.
  injection Hiv as <-. reflexivity.
Defined.

(** Two candidates without votes: the first wins, the second loses. *)
Lemma ranking_witness :
  [ex_alice; ex_bob] <> [] /\
  exists t,
    rank [ex_alice; ex_bob] [] = inr t /\
    Permutation (ranking t) [ex_alice; ex_bob] /\
    Candidate.name (winner t) = "Alice"%string /\
    Candidate.name (loser t) = "Bob"%string.
Proof.
  assert (H1 : [ex_alice; ex_bob] <> []) by discriminate.
  split; [exact H1|].
  destruct (winner_is_earliest_maximum_loser_is_latest_minimum
              [ex_alice; ex_bob] [] H1) as (t & Hr & Hp & _).
  exists t. split; [exact Hr|]. split; [exact Hp|].
  vm_compute in Hr. injection Hr as <-. split; reflexivity.
Defined.

(** The first voter of the small election: the negative draw is stored
    as [0]. *)
Lemma sampled_weights_witness :
  exists p rng',
    Person.init ex_population_views ex_rng = (inr p, rng') /\
    map View.weight (Person.views p) = [1%Q; 0%Q] /\
    Forall (fun v => (0 <= View.weight v)%Q) (Person.views p).
Proof.
  destruct (Person.init ex_population_views ex_rng) as [[e|p] rng'] eqn:Hi;
    [vm_compute in Hi; discriminate Hi|].
  exists p, rng'. split; [reflexivity|].
  destruct (sampled_weights_are_clamped_draws ex_population_views ex_rng rng' p Hi)
    as [HF _].
  split.
  - vm_compute in Hi. injection Hi as <- _. reflexivity.
  - eapply Forall_impl; [|exact HF]. intros v [_ Hv]. exact Hv.
Defined.

(** Dave's first view is on tax, the voter's on parks. *)
Lemma vote_mismatch_witness :
  In ex_dave [ex_alice; ex_dave] /\
  nth_error (Candidate.views ex_dave) 0 = Some (View.mk ex_tax (Some "cut"%string) 1%Q) /\
  nth_error (Person.views ex_voter) 0 = Some (View.mk ex_parks (Some "more"%string) 1%Q) /\
  Person.score_candidates ex_voter [ex_alice; ex_dave] 0 [] = inl Exception /\
  Person.vote ex_voter [ex_alice; ex_dave] = (inl Exception, (ex_voter, [ex_alice; ex_dave])).
Proof.
  assert (H1 : In ex_dave [ex_alice; ex_dave]) by (right; left; reflexivity).
  assert (H2 : nth_error (Candidate.views ex_dave) 0
               = Some (View.mk ex_tax (Some "cut"%string) 1%Q)) by reflexivity.
  assert (H3 : nth_error (Person.views ex_voter) 0
               = Some (View.mk ex_parks (Some "more"%string) 1%Q)) by reflexivity.
  assert (H4 : View.issue_name (View.mk ex_tax (Some "cut"%string) 1%Q)
               <> View.issue_name (View.mk ex_parks (Some "more"%string) 1%Q))
    by discriminate.
  exact (conj H1 (conj H2 (conj H3
           (vote_raises_on_issue_mismatch ex_voter [ex_alice; ex_dave] ex_dave 0
              _ _ H1 H2 H3 H4)))).
Defined.


(** * Further properties of the module *)

(** ** The order of strings *)

Lemma ascii_compare_lt_trans (a b c : ascii) :
  Ascii.compare a b = Lt -> Ascii.compare b c = Lt -> Ascii.compare a c = Lt.
Proof.
  unfold Ascii.compare. rewrite !N.compare_lt_iff. apply N.lt_trans.
Qed.

Lemma string_compare_lt_trans (a : string) :
  forall b c, String.compare a b = Lt -> String.compare b c = Lt ->
              String.compare a c = Lt.
Proof.
  induction a as [|x a IH]; intros [|y b] [|z c]; simpl; try congruence.
  destruct (Ascii.compare x y) eqn:Exy; try discriminate.
  - apply Ascii.compare_eq_iff in Exy. subst y.
    destruct (Ascii.compare x z) eqn:Exz; try congruence.
    apply IH.
  - intros _. destruct (Ascii.compare y z) eqn:Eyz; try discriminate.
    + apply Ascii.compare_eq_iff in Eyz. subst z. now rewrite Exy.
    + intros _. now rewrite (ascii_compare_lt_trans _ _ _ Exy Eyz).
Qed.

Lemma string_ltb_trans (a b c : string) :
  String.ltb a b = true -> String.ltb b c = true -> String.ltb a c = true.
Proof.
  unfold String.ltb.
  destruct (String.compare a b) eqn:E1; try discriminate.
  destruct (String.compare b c) eqn:E2; try discriminate.
  now rewrite (string_compare_lt_trans _ _ _ E1 E2).
Qed.

Lemma string_ltb_total (a b : string) :
  String.ltb a b = false -> String.ltb b a = false -> a = b.
Proof.
  unfold String.ltb. rewrite (String.compare_antisym b a).
  destruct (String.compare a b) eqn:E; simpl; try discriminate.
  intros _ _. now apply String.compare_eq_iff.
Qed.

Lemma string_ltb_negtrans (a b c : string) :
  String.ltb a b = false -> String.ltb b c = false -> String.ltb a c = false.
Proof.
  intros H1 H2. destruct (String.ltb a c) eqn:E; [|reflexivity].
  destruct (String.ltb b a) eqn:Eba.
  - rewrite (string_ltb_trans _ _ _ Eba E) in H2. discriminate.
  - assert (a = b) by now apply string_ltb_total. subst. congruence.
Qed.

Lemma string_ltb_leb (a b : string) : String.ltb b a = false <-> String.leb a b = true.
Proof.
  unfold String.ltb, String.leb. rewrite (String.compare_antisym a b).
  destruct (String.compare b a); simpl; split; congruence.
Qed.

(** ** Sorting by a key that is totally ordered *)

Section SortedKeys.

Context {A K : Type}.
Variable key : A -> K.
Variable lt : K -> K -> bool.

Lemma insert_map_key (x : A) (l : list A) :
  map key (insert key lt x l) = insert (fun k => k) lt (key x) (map key l).
Proof.
  induction l as [|y l IH]; simpl; [reflexivity|].
  destruct (lt (key y) (key x)); simpl; now rewrite ?IH.
Qed.

Lemma sorted_map_key (l : list A) :
  map key (sorted key lt l) = sorted (fun k => k) lt (map key l).
Proof.
  induction l as [|x l IH]; simpl; [reflexivity|].
  now rewrite insert_map_key, IH.
Qed.

Hypothesis lt_asym : forall a b, lt a b = true -> lt b a = false.
Hypothesis lt_negtrans : forall a b c, lt a b = false -> lt b c = false -> lt a c = false.
Hypothesis lt_total : forall a b, lt a b = false -> lt b a = false -> a = b.

(** Two ordered lists with the same elements are the same list. *)
Lemma ordered_unique (l1 : list K) :
  forall l2,
    StronglySorted (fun a b => lt b a = false) l1 ->
    StronglySorted (fun a b => lt b a = false) l2 ->
    Permutation l1 l2 -> l1 = l2.
Proof.
  induction l1 as [|x l1 IH]; intros l2 S1 S2 P.
  - apply Permutation_nil in P. now subst.
  - destruct l2 as [|y l2].
    + apply Permutation_sym, Permutation_nil in P. discriminate.
    + inversion S1 as [|? ? S1' F1]; subst. inversion S2 as [|? ? S2' F2]; subst.
      assert (E : x = y).
      { assert (Hx : In x (y :: l2)) by (eapply Permutation_in; [exact P|now left]).
        assert (Hy : In y (x :: l1))
          by (eapply Permutation_in; [apply Permutation_sym; exact P|now left]).
        destruct Hx as [->|Hx]; [reflexivity|].
        destruct Hy as [->|Hy]; [reflexivity|].
        rewrite Forall_forall in F1, F2.
        apply lt_total; [apply (F2 x Hx)|apply (F1 y Hy)]. }
      subst y. f_equal. apply IH; auto.
      eapply Permutation_cons_inv. exact P.
Qed.

(** Sorting lists with the same keys gives the same sequence of keys. *)
Lemma sorted_keys_unique {B : Type} (key' : B -> K) (l1 : list A) (l2 : list B) :
  Permutation (map key l1) (map key' l2) ->
  map key (sorted key lt l1) = map key' (sorted key' lt l2).
Proof.
  intros P. rewrite sorted_map_key.
  assert (E : map key' (sorted key' lt l2) = sorted (fun k => k) lt (map key' l2)).
  { clear. induction l2 as [|x l IH]; simpl; [reflexivity|].
    rewrite <- IH. clear IH. generalize (sorted key' lt l). intros s.
    induction s as [|y s IHs]; simpl; [reflexivity|].
    destruct (lt (key' y) (key' x)); simpl; now rewrite ?IHs. }
  rewrite E. apply ordered_unique.
  - apply (sorted_StronglySorted (fun k => k) lt lt_asym lt_negtrans).
  - apply (sorted_StronglySorted (fun k => k) lt lt_asym lt_negtrans).
  - rewrite !(sorted_Permutation (fun k => k) lt). exact P.
Qed.

End SortedKeys.

(** ** The registry and the constructors *)

Lemma sorted_by_name_ordered {X : Type} (name : X -> string) (l : list X) :
  StronglySorted (fun a b => String.leb (name a) (name b) = true)
                 (sorted name String.ltb l).
Proof.
  eapply StronglySorted_weaken;
    [|apply (sorted_StronglySorted name String.ltb string_ltb_asym string_ltb_negtrans)].
  intros a b H. now apply string_ltb_leb.
Qed.

Lemma ordered_by_name_ascending {X : Type} (name : X -> string) (l : list X) :
  StronglySorted (fun a b => String.leb (name a) (name b) = true) l ->
  ascending name String.ltb l.
Proof.
  induction 1 as [|x l Hl IH Hx]; simpl; [exact I|].
  split; [|exact IH]. destruct l as [|y l]; [exact I|].
  inversion Hx; subst. now apply string_ltb_leb.
Qed.

(** X1. [generate_issues] returns the declared issues, each once per
    declaration, reordered so that every issue stands before all issues
    of greater name.  It does not reject or merge issues of the same
    name. *)
Theorem generate_issues_sorted_permutation (issue_settings : list IssueSetting.t) :
  Permutation (generate_issues issue_settings)
              (map (fun i => Issue.init (IssueSetting.name i) (IssueSetting.stances i))
                   issue_settings) /\
  StronglySorted (fun a b => String.leb (Issue.name a) (Issue.name b) = true)
                 (generate_issues issue_settings) /\
  length (generate_issues issue_settings) = length issue_settings.
Proof.
  unfold generate_issues. split; [apply sorted_Permutation|].
  split; [apply sorted_by_name_ordered|].
  now rewrite sorted_length, length_map.
Qed.

(** X2. A candidate is constructed with no votes and with the views it
    is given, reordered by issue name; constructing a candidate again
    from a constructed candidate's views changes nothing. *)
Theorem Candidate_init_sorts_views (name : string) (views : list View.t) :
  Candidate.votes (Candidate.init name views) = 0 /\
  Candidate.name (Candidate.init name views) = name /\
  Permutation (Candidate.views (Candidate.init name views)) views /\
  StronglySorted (fun a b => String.leb (View.issue_name a) (View.issue_name b) = true)
                 (Candidate.views (Candidate.init name views)) /\
  Candidate.init name (Candidate.views (Candidate.init name views))
  = Candidate.init name views.
Proof.
  unfold Candidate.init. simpl.
  split; [reflexivity|]. split; [reflexivity|].
  split; [apply sorted_Permutation|].
  split; [apply sorted_by_name_ordered|].
  f_equal. apply sorted_ascending_id, ordered_by_name_ascending,
             sorted_by_name_ordered.
Qed.

Lemma Forall2_of_maps {X Y U V : Type} (f : X -> U) (g : Y -> U)
    (f' : X -> V) (g' : Y -> V) (l1 : list X) :
  forall l2,
    map f l1 = map g l2 -> map f' l1 = map g' l2 ->
    Forall2 (fun a b => g b = f a /\ g' b = f' a) l1 l2.
Proof.
  induction l1 as [|a l1 IH]; intros [|b l2] H H'; try discriminate; constructor.
  - simpl in H, H'. injection H as H _. injection H' as H' _. auto.
  - simpl in H, H'. injection H as _ H. injection H' as _ H'. auto.
Qed.

Lemma firstn_length_all {X : Type} (l : list X) (n : nat) :
  n = length l -> firstn n l = l.
Proof.
  intros ->. apply firstn_all.
Qed.

(** X3. A candidate that declares views for the declared issues, name
    for name, gets every declared stance on the issue it was declared
    for: the candidate has one view per issue, in registry order, and the
    view on an issue holds the stance the settings give for the issue of
    that name. *)
Theorem complete_candidate_views_land_on_their_issues (settings : Settings.t) :
  let issues := generate_issues (Settings.issues settings) in
  Forall2 (fun c cand =>
             Permutation (map CandidateViewSetting.issue (CandidateSetting.views c))
                         (map IssueSetting.name (Settings.issues settings)) ->
             map View.issue (Candidate.views cand) = issues /\
             Forall2 (fun cv v =>
                        View.issue_name v = CandidateViewSetting.issue cv /\
                        View.stance v = Some (CandidateViewSetting.stance cv))
                     (sorted CandidateViewSetting.issue String.ltb
                             (CandidateSetting.views c))
                     (Candidate.views cand) /\
             forall cv, In cv (CandidateSetting.views c) ->
               exists v, In v (Candidate.views cand) /\
                         View.issue_name v = CandidateViewSetting.issue cv /\
                         View.stance v = Some (CandidateViewSetting.stance cv))
          (Settings.candidates settings)
          (generate_candidates (Settings.candidates settings) issues).
Proof.
  intros issues.
  assert (Hasc := generate_issues_ascending (Settings.issues settings)).
  fold issues in Hasc.
  eapply Forall2_impl;
    [|exact (generate_candidates_views issues (Settings.candidates settings) Hasc)].
  intros c cand (_ & _ & Hi & Hs) P. simpl in Hs.
  set (cviews := sorted CandidateViewSetting.issue String.ltb (CandidateSetting.views c))
    in *.
  assert (Hnames : map CandidateViewSetting.issue cviews = map Issue.name issues).
  { unfold cviews, issues, generate_issues.
    apply (sorted_keys_unique CandidateViewSetting.issue String.ltb
             string_ltb_asym string_ltb_negtrans string_ltb_total Issue.name).
    rewrite map_map. exact P. }
  assert (Hlen : length (CandidateSetting.views c) = length issues).
  { apply (f_equal (@length string)) in Hnames. rewrite !length_map in Hnames.
    unfold cviews in Hnames. now rewrite sorted_length in Hnames. }
  rewrite (firstn_length_all issues _ Hlen) in Hi.
  assert (Hlen' : length issues = length (map (fun v => Some (CandidateViewSetting.stance v)) cviews)).
  { rewrite length_map. unfold cviews. now rewrite sorted_length. }
  rewrite (firstn_length_all _ _ Hlen') in Hs.
  assert (HF : Forall2 (fun cv v =>
                          View.issue_name v = CandidateViewSetting.issue cv /\
                          View.stance v = Some (CandidateViewSetting.stance cv))
                       cviews (Candidate.views cand)).
  { apply (Forall2_of_maps CandidateViewSetting.issue View.issue_name
             (fun v => Some (CandidateViewSetting.stance v)) View.stance).
    - rewrite Hnames, <- Hi, map_map. reflexivity.
    - now rewrite Hs. }
  split; [exact Hi|]. split; [exact HF|].
  intros cv Hcv.
  assert (Hin : In cv cviews) by now apply sorted_In.
  clear - HF Hin. induction HF as [|a b l1 l2 Hab _ IH]; [destruct Hin|].
  destruct Hin as [->|Hin].
  - exists b. split; [now left|exact Hab].
  - destruct (IH Hin) as (v & Hv & H). exists v. split; [now right|exact H].
Qed.

(** ** Building the populations *)

Lemma generate_loop_length (n : nat) :
  forall pvs acc r r1 people,
    Population.generate_loop n pvs acc r = (inr people, r1) ->
    length people = length acc + n.
Proof.
  induction n as [|n IH]; intros pvs acc r r1 people; simpl.
  - unfold gret. intros H. injection H as <- <-. lia.
  - unfold gbind. destruct (Person.init pvs r) as [[e|p] r2]; [discriminate|].
    intros H. apply IH in H. rewrite length_app in H. simpl in H. lia.
Qed.

(** What one population is built from. *)
Lemma generate_populations_shape (issues : list Issue.t)
    (pop_settings : list PopulationSetting.t) :
  forall r r' populations,
    generate_populations pop_settings issues r = (inr populations, r') ->
    Forall2 (fun pop p =>
               Population.name p = PopulationSetting.name pop /\
               Population.size p = PopulationSetting.size pop /\
               length (Population.people p) = Z.to_nat (PopulationSetting.size pop) /\
               Population.population_views p
               = map (fun '(v, issue) =>
                        PopulationView.init issue (IssueViewSetting.stances v)
                          (IssueViewSetting.weight v) (IssueViewSetting.weight_variance v))
                     (combine (sorted IssueViewSetting.name String.ltb
                                      (PopulationSetting.issue_views pop))
                              issues))
            pop_settings populations.
Proof.
  induction pop_settings as [|pop rest IH]; intros r r' populations; simpl.
  - unfold gret. intros H. injection H as <- <-. constructor.
  - unfold gbind at 1. unfold Population.init, Population._generate_people.
    unfold gbind at 1.
    match goal with
    | |- context [Population.generate_loop ?n ?pvs [] r] =>
        destruct (Population.generate_loop n pvs [] r) as [[e|people] r1] eqn:E;
          [discriminate|]
    end.
    unfold gret at 1. unfold gbind at 1.
    destruct (generate_populations rest issues r1) as [[e|ps] r2] eqn:E2;
      [discriminate|].
    unfold gret. intros H. injection H as <- <-.
    constructor; [|eapply IH; exact E2]. simpl.
    repeat split.
    apply generate_loop_length in E. exact E.
Qed.

(** X4. A population that gives issue views for the declared issues,
    name for name, gets every issue view on the issue it was given for:
    its population views follow the registry, and the view on an issue
    carries the proportions, the mean weight and the deviation the
    settings give under that issue's name.  Name and size are kept, and
    the population has [max(0, size)] voters. *)
Theorem complete_population_views_land_on_their_issues (settings : Settings.t)
    (rng rng' : RNG) (populations : list Population.t) :
  let issues := generate_issues (Settings.issues settings) in
  generate_populations (Settings.populations settings) issues rng
  = (inr populations, rng') ->
  Forall2 (fun pop p =>
             Population.name p = PopulationSetting.name pop /\
             Population.size p = PopulationSetting.size pop /\
             length (Population.people p) = Z.to_nat (PopulationSetting.size pop) /\
             (Permutation (map IssueViewSetting.name (PopulationSetting.issue_views pop))
                          (map IssueSetting.name (Settings.issues settings)) ->
              map PopulationView.issue (Population.population_views p) = issues /\
              Forall2 (fun v pv =>
                         Issue.name (PopulationView.issue pv) = IssueViewSetting.name v /\
                         PopulationView.proportions pv = IssueViewSetting.stances v /\
                         PopulationView.weight pv = IssueViewSetting.weight v /\
                         PopulationView.weight_variance pv
                         = IssueViewSetting.weight_variance v)
                      (sorted IssueViewSetting.name String.ltb
                              (PopulationSetting.issue_views pop))
                      (Population.population_views p)))
          (Settings.populations settings) populations.
Proof.
  intros issues H.
  eapply Forall2_impl; [|exact (generate_populations_shape issues _ _ _ _ H)].
  intros pop p (Hn & Hs & Hl & Hv). split; [exact Hn|]. split; [exact Hs|].
  split; [exact Hl|]. intros P. rewrite Hv.
  set (ivs := sorted IssueViewSetting.name String.ltb (PopulationSetting.issue_views pop)).
  assert (Hnames : map IssueViewSetting.name ivs = map Issue.name issues).
  { unfold ivs, issues, generate_issues.
    apply (sorted_keys_unique IssueViewSetting.name String.ltb
             string_ltb_asym string_ltb_negtrans string_ltb_total Issue.name).
    rewrite map_map. exact P. }
  clearbody ivs. clear - Hnames. revert ivs Hnames.
  induction issues as [|i issues IH]; intros [|v ivs] Hnames; try discriminate.
  - split; [reflexivity|constructor].
  - simpl in Hnames. injection Hnames as Hv Hrest.
    destruct (IH ivs Hrest) as [Hi HF]. simpl. split; [now rewrite Hi|].
    constructor; [|exact HF]. simpl. auto.
Qed.

(** ** Constructing a voter *)


Lemma dict_get_key {V : Type} (d : dict V) (k : string) :
  (In k (dict_keys d) -> exists v, dict_get d k = inr v) /\
  (~ In k (dict_keys d) -> dict_get d k = inl KeyError).
Proof.
  induction d as [|[k' v'] d [IH1 IH2]]; simpl.
  - split; [tauto|reflexivity].
  - destruct (String.eqb_spec k' k) as [->|N].
    + split; [eexists; reflexivity|tauto].
    + split; intros H.
      * apply IH1. destruct H; congruence.
      * apply IH2. tauto.
Qed.






(** X6. A constructed voter has one view for each population view, on
    that view's issue; the views stand in the order of their issue
    names, and every view holds a stance its issue declares. *)
Theorem Person_init_views_shape (population_views : list PopulationView.t)
    (r r' : RNG) (p : Person.t) :
  Person.init population_views r = (inr p, r') ->
  Permutation (map View.issue (Person.views p))
              (map PopulationView.issue population_views) /\
  StronglySorted (fun a b => String.leb (View.issue_name a) (View.issue_name b) = true)
                 (Person.views p) /\
  Forall declared (Person.views p).
Proof.
  intros H. unfold Person.init, gbind in H.
  destruct (Person._decide_views population_views [] r) as [[e|vs] r1] eqn:E;
    [discriminate|].
  unfold gret in H. injection H as <- <-. simpl.
  destruct (decide_views_returns _ _ _ _ _ E) as (new & -> & Hmap & Hnth & _).
  simpl. split; [|split].
  - rewrite <- Hmap. apply Permutation_map, sorted_Permutation.
  - apply sorted_by_name_ordered.
  - apply Forall_forall. intros v Hv. apply (proj1 (sorted_In _ _ _ _)) in Hv.
    apply In_nth_error in Hv. destruct Hv as [k Hk].
    now destruct (Hnth _ _ Hk).
Qed.

(** X7. A population is constructed with the name, size and views it is
    given and with [max(0, size)] voters.  With a size of zero or less
    the construction returns an empty population without a draw, also
    when its views are not drawable. *)
Theorem Population_init_size (name : string) (size : Z)
    (population_views : list PopulationView.t) (r : RNG) :
  (forall pop r',
     Population.init name size population_views r = (inr pop, r') ->
     Population.name pop = name /\
     Population.size pop = size /\
     Population.population_views pop = population_views /\
     length (Population.people pop) = Z.to_nat size) /\
  ((size <= 0)%Z ->
   Population.init name size population_views r
   = (inr (Population.mk size name population_views []), r)).
Proof.
  split.
  - intros pop r'. unfold Population.init, Population._generate_people, gbind.
    destruct (Population.generate_loop _ _ _ r) as [[e|people] r1] eqn:E;
      [discriminate|].
    unfold gret. intros H. injection H as <- <-. simpl.
    repeat split. now apply generate_loop_length in E.
  - intros Hs. unfold Population.init, Population._generate_people, gbind.
    replace (Z.to_nat size) with 0 by lia. reflexivity.
Qed.

(** ** Constructors and the guard of [vote] *)

Lemma aligned_of_names (a b : list View.t) :
  map View.issue_name a = map View.issue_name b -> aligned a b.
Proof.
  intros H i x y Hx Hy.
  apply (map_nth_error View.issue_name) in Hx, Hy.
  rewrite H in Hx. congruence.
Qed.

(** X8. A candidate constructed from views on the issues of a voter's
    population views, name for name, is aligned with the constructed
    voter: both have the same number of views, the views at every
    position name the same issue, and the scoring loop of [vote] returns
    a score for the candidate. *)
Theorem constructed_views_are_aligned (name : string) (cviews : list View.t)
    (population_views : list PopulationView.t) (r r' : RNG) (p : Person.t) :
  Person.init population_views r = (inr p, r') ->
  Permutation (map View.issue_name cviews)
              (map (fun i => Issue.name (PopulationView.issue i)) population_views) ->
  length (Candidate.views (Candidate.init name cviews)) = length (Person.views p) /\
  aligned (Candidate.views (Candidate.init name cviews)) (Person.views p) /\
  exists s, Person.score p (Candidate.init name cviews) = inr s.
Proof.
  intros H P. unfold Person.init, gbind in H.
  destruct (Person._decide_views population_views [] r) as [[e|vs] r1] eqn:E;
    [discriminate|].
  unfold gret in H. injection H as <- <-.
  destruct (decide_views_returns _ _ _ _ _ E) as (new & -> & Hmap & _).
  cbn [Person.views Candidate.views Candidate.init app].
  assert (Hn : map View.issue_name (sorted View.issue_name String.ltb cviews)
               = map View.issue_name (sorted View.issue_name String.ltb new)).
  { apply (sorted_keys_unique View.issue_name String.ltb
             string_ltb_asym string_ltb_negtrans string_ltb_total View.issue_name).
    rewrite P. unfold View.issue_name.
    rewrite <- (map_map View.issue Issue.name new), Hmap, map_map. reflexivity. }
  assert (Hal := aligned_of_names _ _ Hn).
  split; [|split; [exact Hal|]].
  - apply (f_equal (@length string)) in Hn. now rewrite !length_map in Hn.
  - exact (score_aligned (Person.mk (sorted View.issue_name String.ltb new))
             (Candidate.init name cviews) Hal).
Qed.

(** ** The run as a whole *)

(** With a candidate, a run whose build phase returns goes through. *)
Lemma run_election_returns (settings : Settings.t) (rng rng' : RNG)
    (issues : list Issue.t) (candidates : list Candidate.t)
    (populations : list Population.t) :
  Settings.candidates settings <> [] ->
  build settings rng = (inr (issues, candidates, populations), rng') ->
  exists counted t,
    vote_populations populations candidates []
    = inr (counted, concat (map Population.people populations)) /\
    total_votes counted = length (concat (map Population.people populations)) /\
    rank counted (concat (map Population.people populations)) = inr t /\
    run_election settings rng = inr t.
Proof.
  intros Hne Hb. unfold run_election. rewrite Hb.
  unfold build, gbind in Hb.
  destruct (generate_populations _ _ rng) as [[e|pops] r1] eqn:E; [discriminate|].
  unfold gret in Hb. injection Hb as <- <- <- <-.
  set (issues := generate_issues (Settings.issues settings)) in *.
  set (candidates := generate_candidates (Settings.candidates settings) issues).
  assert (Hasc := generate_issues_ascending (Settings.issues settings)).
  fold issues in Hasc.
  assert (HP := generate_populations_returns issues Hasc _ _ _ _ E).
  assert (HC := generate_candidates_views issues (Settings.candidates settings) Hasc).
  fold candidates in HC.
  assert (Hcne : candidates <> []).
  { intros E0. apply (f_equal (@length Candidate.t)) in E0.
    unfold candidates in E0. rewrite generate_candidates_length in E0.
    destruct (Settings.candidates settings); [congruence|discriminate]. }
  destruct (vote_populations_returns pops candidates [] Hcne) as (c' & Hr & Ht & Hne').
  { clear - HP HC. apply Forall_forall. intros pop Hpop.
    apply Forall_forall. intros p Hp.
    apply Forall_forall. intros cv Hcv.
    apply in_map_iff in Hcv. destruct Hcv as (c & <- & Hc).
    assert (Hk : exists k, map View.issue (Candidate.views c) = firstn k issues).
    { clear - HC Hc. induction HC as [|x y xs ys Hxy _ IH]; [destruct Hc|].
      destruct Hc as [->|Hc]; [|now apply IH].
      destruct Hxy as (_ & _ & Hi & _). eexists. exact Hi. }
    assert (Hm : exists m, map View.issue (Person.views p) = firstn m issues).
    { clear - HP Hpop Hp. induction HP as [|x y xs ys Hxy _ IH]; [destruct Hpop|].
      destruct Hpop as [->|Hpop]; [|now apply IH].
      destruct Hxy as [_ HF]. rewrite Forall_forall in HF.
      exact (proj1 (HF p Hp)). }
    destruct Hk as [k Hk]. destruct Hm as [m Hm].
    eapply prefixes_aligned; eassumption. }
  simpl in Hr. rewrite Hr. cbn [bind fst snd].
  destruct (rank_returns c' (concat (map Population.people pops)) Hne')
    as (t & Hrank & _).
  exists c', t. split; [reflexivity|]. split; [|split; [exact Hrank|exact Hrank]].
  rewrite Ht. unfold candidates. now rewrite generate_candidates_no_votes.
Qed.

Lemma vote_people_nobody (people : list Person.t) (done : list Person.t) :
  vote_people people [] done
  = match people with
    | [] => inr ([], done)
    | _ :: _ => inl IndexError
    end.
Proof.
  destruct people; reflexivity.
Qed.

Lemma vote_populations_nobody (populations : list Population.t) :
  forall done,
    vote_populations populations [] done
    = match concat (map Population.people populations) with
      | [] => inr ([], done)
      | _ :: _ => inl IndexError
      end.
Proof.
  induction populations as [|pop rest IH]; intros done; simpl; [reflexivity|].
  rewrite vote_people_nobody.
  destruct (Population.people pop) as [|p ps]; simpl; [apply IH|reflexivity].
Qed.

Lemma run_without_candidates_raises_aux (settings : Settings.t) (rng : RNG) :
  Settings.candidates settings = [] ->
  run_election settings rng
  = inl (match fst (build settings rng) with
         | inl e => e
         | inr _ => IndexError
         end).
Proof.
  intros H. unfold run_election, build, gbind. rewrite H. simpl.
  destruct (generate_populations _ _ rng) as [[e|pops] r1]; simpl; [reflexivity|].
  rewrite vote_populations_nobody.
  destruct (concat (map Population.people pops)); reflexivity.
Qed.

(** X9. A settings document without candidates makes every run raise.
    When the build phase returns, the run raises [IndexError]: from the
    first voter's [vote] if there is a voter, and otherwise from the
    subscript that picks the winner. *)
Theorem run_without_candidates_raises (settings : Settings.t) (rng : RNG) :
  Settings.candidates settings = [] ->
  run_election settings rng
  = inl (match fst (build settings rng) with
         | inl e => e
         | inr _ => IndexError
         end).
Proof.
  exact (run_without_candidates_raises_aux settings rng).
Qed.

(** X10. A run never raises the [Exception] of the issue-name guard.  It
    raises [IndexError] only for a settings document without candidates;
    every other exception of a run is the [KeyError] or [ValueError]
    raised while the build phase generates voters. *)
Theorem run_raises_only_from_the_build (settings : Settings.t) (rng : RNG)
    (e : PyExn) :
  run_election settings rng = inl e ->
  e <> Exception /\
  ((e = IndexError /\ Settings.candidates settings = []) \/
   ((e = KeyError \/ e = ValueError) /\ fst (build settings rng) = inl e)).
Proof.
  intros H.
  assert (G : (e = IndexError /\ Settings.candidates settings = []) \/
              ((e = KeyError \/ e = ValueError) /\ fst (build settings rng) = inl e)).
  { destruct (build settings rng) as [[e'|[[issues candidates] populations]] rng']
      eqn:Hb.
    - unfold run_election in H. rewrite Hb in H. injection H as ->.
      right. split; [|reflexivity].
      unfold build, gbind in Hb.
      destruct (generate_populations _ _ rng) as [[e''|pops] r1] eqn:E;
        [|discriminate].
      injection Hb as <- <-. exact (generate_populations_raises _ _ _ _ _ E).
    - destruct (Settings.candidates settings) as [|c cs] eqn:Ec.
      + left. split; [|reflexivity].
        rewrite (run_without_candidates_raises_aux settings rng Ec), Hb in H.
        simpl in H. now injection H as <-.
      + assert (Hne : Settings.candidates settings <> []) by congruence.
        destruct (run_election_returns settings rng rng' _ _ _ Hne Hb)
          as (c' & t & _ & _ & _ & Hr). congruence. }
  split; [|exact G].
  destruct G as [[-> _]|[[->| ->] _]]; discriminate.
Qed.

Lemma sorted_reverse_ties {X : Type} (key : X -> nat) (l : list X) (k : nat) :
  Forall (fun x => key x = k) l -> sorted_reverse key Nat.ltb l = l.
Proof.
  intros H. unfold sorted_reverse.
  rewrite sorted_ascending_id; [apply rev_involutive|].
  apply Forall_rev in H. induction H as [|x l' Hx Hl IH]; simpl; [exact I|].
  split; [|exact IH]. destruct Hl as [|y l'' Hy _]; [exact I|].
  rewrite Hx, Hy. apply Nat.ltb_irrefl.
Qed.

Lemma generate_populations_nobody (issues : list Issue.t)
    (pop_settings : list PopulationSetting.t) (r : RNG) :
  Forall (fun pop => (PopulationSetting.size pop <= 0)%Z) pop_settings ->
  exists populations,
    generate_populations pop_settings issues r = (inr populations, r) /\
    Forall (fun p => Population.people p = []) populations.
Proof.
  induction 1 as [|pop rest Hp _ (ps & IH & HF)]; simpl.
  - exists []. split; [reflexivity|constructor].
  - unfold gbind, Population.init, Population._generate_people, gret.
    replace (Z.to_nat (PopulationSetting.size pop)) with 0 by lia. simpl.
    unfold gret. rewrite IH.
    eexists. split; [reflexivity|]. constructor; [reflexivity|exact HF].
Qed.

Lemma vote_populations_empty (populations : list Population.t) :
  Forall (fun p => Population.people p = []) populations ->
  forall candidates done,
    vote_populations populations candidates done = inr (candidates, done).
Proof.
  induction 1 as [|pop rest Hp _ IH]; intros candidates done; simpl; [reflexivity|].
  rewrite Hp. simpl. apply IH.
Qed.

(** X11. When no population has a positive size, a run with a candidate
    needs no draw and returns: nobody has voted, the ranking is the list
    of candidates in declared order, the winner is the first declared
    candidate and the loser the last declared one. *)
Theorem run_without_voters (settings : Settings.t) (rng : RNG) :
  Settings.candidates settings <> [] ->
  Forall (fun pop => (PopulationSetting.size pop <= 0)%Z)
         (Settings.populations settings) ->
  exists t,
    run_election settings rng = inr t /\
    all_people t = [] /\
    Forall (fun c => Candidate.votes c = 0) (ranking t) /\
    map Candidate.name (ranking t)
    = map CandidateSetting.name (Settings.candidates settings) /\
    hd_error (ranking t) = Some (winner t) /\
    (exists front, ranking t = front ++ [loser t]).
Proof.
  intros Hne Hz. unfold run_election, build, gbind.
  destruct (generate_populations_nobody
              (generate_issues (Settings.issues settings)) _ rng Hz)
    as (pops & -> & Hp).
  unfold gret. rewrite (vote_populations_empty pops Hp). cbn [bind fst snd].
  set (candidates := generate_candidates (Settings.candidates settings)
                       (generate_issues (Settings.issues settings))).
  assert (Hv : Forall (fun c => Candidate.votes c = 0) candidates).
  { unfold candidates, generate_candidates. apply Forall_map.
    apply Forall_forall. intros c _. reflexivity. }
  assert (Hnames : map Candidate.name candidates
                   = map CandidateSetting.name (Settings.candidates settings)).
  { unfold candidates, generate_candidates. rewrite map_map. reflexivity. }
  unfold rank. rewrite (sorted_reverse_ties Candidate.votes candidates 0 Hv).
  assert (Hc : candidates <> []).
  { intros E. apply (f_equal (@length Candidate.t)) in E.
    unfold candidates in E. rewrite generate_candidates_length in E.
    destruct (Settings.candidates settings); [congruence|discriminate]. }
  destruct (exists_last Hc) as (front & lst & Hl).
  assert (G1 : py_getitem candidates (-1) = inr lst)
    by (rewrite Hl; apply py_getitem_last).
  assert (G0 : exists c, py_getitem candidates 0 = inr c /\
                         hd_error candidates = Some c).
  { destruct candidates as [|c cs]; [congruence|].
    exists c. split; [apply py_getitem_first|reflexivity]. }
  destruct G0 as (c & G0 & Hhd).
  rewrite G0. cbn [bind]. rewrite G1. cbn [bind ret].
  eexists. split; [reflexivity|]. cbn [all_people ranking winner loser].
  repeat split; auto. exists front. exact Hl.
Qed.

(** ** Votes do not depend on the counters *)

Lemma score_candidates_views (self : Person.t) (c : list Candidate.t) :
  forall c' pos acc,
    map Candidate.views c = map Candidate.views c' ->
    Person.score_candidates self c pos acc = Person.score_candidates self c' pos acc.
Proof.
  induction c as [|x c IH]; intros [|y c'] pos acc H; try discriminate;
    [reflexivity|].
  simpl in H. injection H as Hxy H. simpl. unfold Person.score. rewrite Hxy.
  destruct (Person.score_views _ 0%Q); [reflexivity|]. now apply IH.
Qed.

(** What [vote] does is fixed by the views: the same outcome, and the
    vote at the same position, on every list with these views. *)
Lemma vote_by_views (self : Person.t) (c : list Candidate.t) :
  exists k,
    forall c', map Candidate.views c' = map Candidate.views c ->
      Person.vote self c'
      = match fst (Person.vote self c) with
        | inl e => (inl e, (self, c'))
        | inr _ => (inr tt, (self, method_at k Candidate.receive_vote c'))
        end.
Proof.
  unfold Person.vote.
  destruct (Person.score_candidates self c 0 []) as [e|ags] eqn:E.
  - exists 0. intros c' H. rewrite (score_candidates_views self c' c 0 [] H), E.
    reflexivity.
  - destruct (py_getitem (sorted_reverse agreements Qltb ags) 0) as [e|top] eqn:G.
    + exists 0. intros c' H. rewrite (score_candidates_views self c' c 0 [] H), E, G.
      reflexivity.
    + exists (candidate top). intros c' H.
      rewrite (score_candidates_views self c' c 0 [] H), E, G. reflexivity.
Qed.

Lemma method_at_comm {X : Type} (f : X -> X) (l : list X) :
  forall j k, method_at j f (method_at k f l) = method_at k f (method_at j f l).
Proof.
  induction l as [|x l IH]; intros [|j] [|k]; simpl; try reflexivity.
  now rewrite IH.
Qed.

Lemma method_at_views (k : nat) (c : list Candidate.t) :
  map Candidate.views (method_at k Candidate.receive_vote c) = map Candidate.views c.
Proof.
  apply method_at_map. reflexivity.
Qed.

Lemma vote_frame_aux (self : Person.t) (c : list Candidate.t)
    (out : result unit) (self' : Person.t) (c' : list Candidate.t) :
  Person.vote self c = (out, (self', c')) ->
  self' = self /\ map Candidate.views c = map Candidate.views c'.
Proof.
  unfold Person.vote.
  destruct (Person.score_candidates self c 0 []) as [e|r].
  - intros H. injection H as <- <- <-. auto.
  - destruct (py_getitem _ 0) as [e|top].
    + intros H. injection H as <- <- <-. auto.
    + intros H. injection H as <- <- <-. split; [reflexivity|].
      symmetry. apply method_at_views.
Qed.

(** The candidates after a pass that returns, whatever was collected. *)
Lemma vote_people_done (people : list Person.t) :
  forall c done c1 all1,
    vote_people people c done = inr (c1, all1) ->
    all1 = done ++ people /\
    map Candidate.views c1 = map Candidate.views c /\
    forall done', vote_people people c done' = inr (c1, done' ++ people).
Proof.
  induction people as [|p ps IH]; intros c done c1 all1; simpl.
  - intros H. injection H as <- <-. rewrite app_nil_r. repeat split.
    intros done'. now rewrite app_nil_r.
  - destruct (Person.vote p c) as [[e|u] [p' c2]] eqn:Ev; [discriminate|].
    intros H. destruct (IH _ _ _ _ H) as (-> & Hv & Hd).
    destruct (vote_frame_aux p c _ _ _ Ev) as (-> & Hv2).
    split; [now rewrite <- app_assoc|]. split; [congruence|].
    intros done'. rewrite (Hd (done' ++ [p])), <- app_assoc. reflexivity.
Qed.

Lemma vote_people_order (people people' : list Person.t) :
  Permutation people people' ->
  forall c c1 done,
    vote_people people c done = inr (c1, done ++ people) ->
    vote_people people' c done = inr (c1, done ++ people').
Proof.
  induction 1 as [|x l l' P IH|x y l|l l' l'' P1 IH1 P2 IH2]; intros c c1 done.
  - auto.
  - simpl. destruct (Person.vote x c) as [[e|u] [p' c2]] eqn:Ev; [discriminate|].
    destruct (vote_frame_aux x c _ _ _ Ev) as (-> & _).
    intros H. destruct (vote_people_done _ _ _ _ _ H) as (_ & _ & Hd).
    specialize (Hd (done ++ [x])). apply IH in Hd.
    rewrite Hd, <- app_assoc. reflexivity.
  - simpl.
    destruct (Person.vote y c) as [[e|u] [y' cy]] eqn:Ey; [discriminate|].
    destruct (vote_frame_aux y c _ _ _ Ey) as (-> & Hvy).
    destruct (Person.vote x cy) as [[e|u'] [x' cyx]] eqn:Ex; [discriminate|].
    destruct (vote_frame_aux x cy _ _ _ Ex) as (-> & Hvx).
    destruct (vote_by_views y c) as [ky Hy].
    destruct (vote_by_views x cy) as [kx Hx].
    rewrite Ey in Hy. rewrite Ex in Hx. simpl in Hx, Hy.
    assert (Ecy : cy = method_at ky Candidate.receive_vote c).
    { assert (H := Hy c eq_refl). rewrite Ey in H. now injection H. }
    assert (Ecyx : cyx = method_at kx Candidate.receive_vote cy).
    { assert (H := Hx cy eq_refl). rewrite Ex in H. now injection H. }
    rewrite (Hx c Hvy).
    rewrite (Hy (method_at kx Candidate.receive_vote c) (method_at_views kx c)).
    rewrite method_at_comm, <- Ecy, <- Ecyx.
    intros H. destruct (vote_people_done _ _ _ _ _ H) as (_ & _ & Hd).
    rewrite (Hd ((done ++ [x]) ++ [y])), <- !app_assoc. reflexivity.
  - intros H. apply IH2, IH1, H.
Qed.

Lemma vote_populations_flat (populations : list Population.t) :
  forall c done,
    vote_populations populations c done
    = vote_people (concat (map Population.people populations)) c done.
Proof.
  induction populations as [|pop rest IH]; intros c done; simpl; [reflexivity|].
  assert (G : forall l1 l2 c done,
             vote_people (l1 ++ l2) c done
             = bind (vote_people l1 c done)
                    (fun st => vote_people l2 (fst st) (snd st))).
  { clear. induction l1 as [|p l1 IH]; intros l2 c done; simpl; [reflexivity|].
    destruct (Person.vote p c) as [[e|u] [p' c2]]; [reflexivity|]. apply IH. }
  rewrite G. destruct (vote_people (Population.people pop) c done) as [e|st];
    simpl; [reflexivity|apply IH].
Qed.

(** X12. The counters after the voting pass do not depend on the order
    in which the voters vote, nor on how the voters are split into
    populations: if the pass returns for the populations, it returns for
    every other arrangement of the same voters and leaves every candidate
    with the same number of votes. *)
Theorem voting_pass_is_order_independent (populations populations' : list Population.t)
    (candidates counted : list Candidate.t) (voted : list Person.t) :
  Permutation (concat (map Population.people populations))
              (concat (map Population.people populations')) ->
  vote_populations populations candidates [] = inr (counted, voted) ->
  vote_populations populations' candidates []
  = inr (counted, concat (map Population.people populations')).
Proof.
  intros P H. rewrite vote_populations_flat in *.
  destruct (vote_people_done _ _ _ _ _ H) as (-> & _).
  exact (vote_people_order _ _ P candidates counted [] H).
Qed.

(** X13. What a voter's [vote] does is decided by the candidates' views
    alone: on two candidate lists with the same views, whatever the
    names and the votes already received, the call has the same outcome,
    and when it returns the vote goes to the same position. *)
Theorem vote_depends_on_views_only (self : Person.t) (c c' : list Candidate.t) :
  map Candidate.views c' = map Candidate.views c ->
  exists k,
    match fst (Person.vote self c) with
    | inl e =>
        Person.vote self c = (inl e, (self, c)) /\
        Person.vote self c' = (inl e, (self, c'))
    | inr _ =>
        Person.vote self c
        = (inr tt, (self, method_at k Candidate.receive_vote c)) /\
        Person.vote self c'
        = (inr tt, (self, method_at k Candidate.receive_vote c'))
    end.
Proof.
  intros H. destruct (vote_by_views self c) as [k Hk]. exists k.
  assert (H1 := Hk c eq_refl). assert (H2 := Hk c' H).
  destruct (fst (Person.vote self c)); auto.
Qed.

(** ** The agreement report *)

Lemma filter_agree_nil (pviews : list View.t) (l : list nat) :
  filter (agree_at pviews []) l = [].
Proof.
  induction l as [|i l IH]; simpl; [reflexivity|].
  unfold agree_at at 1.
  destruct (nth_error pviews i); [destruct i|]; simpl; exact IH.
Qed.

Lemma count_agreements_positions (pviews : list View.t) :
  forall cviews n,
    count_agreements (combine pviews cviews) n
    = n + agreeing_positions pviews cviews.
Proof.
  unfold agreeing_positions.
  induction pviews as [|a pviews IH]; intros [|b cviews] n; simpl.
  - lia.
  - lia.
  - rewrite filter_agree_nil. simpl. lia.
  - rewrite <- seq_shift, filter_map_comm.
    change (agree_at (a :: pviews) (b :: cviews) 0)
      with (stance_eqb (View.stance a) (View.stance b)).
    change (fun x => agree_at (a :: pviews) (b :: cviews) (S x))
      with (agree_at pviews cviews).
    rewrite IH.
    destruct (stance_eqb (View.stance a) (View.stance b)); simpl;
      rewrite length_map; lia.
Qed.

Lemma agreeing_positions_bound (pviews cviews : list View.t) :
  agreeing_positions pviews cviews <= Nat.min (length pviews) (length cviews).
Proof.
  unfold agreeing_positions.
  assert (G : forall l, Forall (fun i => i < length pviews) l -> NoDup l ->
                        length (filter (agree_at pviews cviews) l)
                        <= length (filter (fun i => i <? length cviews) l)).
  { induction l as [|i l IH]; intros HF Hnd; simpl; [lia|].
    inversion HF; subst. inversion Hnd; subst.
    unfold agree_at at 1.
    destruct (nth_error pviews i) as [a|] eqn:Ea.
    - destruct (nth_error cviews i) as [b|] eqn:Eb.
      + assert (Hi : i < length cviews) by (apply nth_error_Some; congruence).
        apply Nat.ltb_lt in Hi. rewrite Hi.
        destruct (stance_eqb _ _); simpl; specialize (IH H2 H4); lia.
      + destruct (i <? length cviews); simpl; specialize (IH H2 H4); lia.
    - destruct (i <? length cviews); simpl; specialize (IH H2 H4); lia. }
  assert (B : length (filter (fun i => i <? length cviews) (seq 0 (length pviews)))
              <= Nat.min (length pviews) (length cviews)).
  { generalize (length cviews) as m. generalize (length pviews) as n.
    intros n m.
    assert (L1 : length (filter (fun i => i <? m) (seq 0 n)) <= n).
    { etransitivity; [apply filter_length_le|]. now rewrite length_seq. }
    assert (L2 : length (filter (fun i => i <? m) (seq 0 n)) <= m).
    { clear L1. induction n as [|n IHn]; [simpl; lia|].
      rewrite seq_S, filter_app, length_app. simpl.
      destruct (Nat.ltb_spec n m) as [Hlt|Hge]; simpl.
      - assert (length (filter (fun i => i <? m) (seq 0 n)) <= n).
        { etransitivity; [apply filter_length_le|]. now rewrite length_seq. }
        lia.
      - lia. }
    lia. }
  etransitivity; [apply G|exact B].
  - apply Forall_forall. intros i Hi. apply in_seq in Hi. lia.
  - apply seq_NoDup.
Qed.

(** X14. [analyze_results] gives the series one number per voter, in the
    voters' order: the number of positions at which the voter and the
    candidate hold the same stance, which is at most the number of views
    of either.  For no voters the series is empty. *)
Theorem analyze_results_counts_agreeing_positions (people : list Person.t)
    (candidate : Candidate.t) :
  length (analyze_results people candidate) = length people /\
  Forall2 (fun person n =>
             n = agreeing_positions (Person.views person) (Candidate.views candidate) /\
             n <= length (Person.views person) /\
             n <= length (Candidate.views candidate))
          people (analyze_results people candidate).
Proof.
  unfold analyze_results. split; [apply length_map|].
  induction people as [|p ps IH]; simpl; constructor; [|exact IH].
  rewrite count_agreements_positions. simpl.
  assert (B := agreeing_positions_bound (Person.views p) (Candidate.views candidate)).
  repeat split; lia.
Qed.

(** ** Scores *)

Lemma score_views_unit (cv : list View.t) :
  forall vv acc n,
    aligned cv vv ->
    Forall (fun x => (View.weight x == 1)%Q) vv ->
    (acc == inject_Z (Z.of_nat n))%Q ->
    exists s,
      Person.score_views (combine cv vv) acc = inr s /\
      (s == inject_Z (Z.of_nat (count_agreements (combine vv cv) n)))%Q.
Proof.
  induction cv as [|a cv IH]; intros [|b vv] acc n Hal Hw Hacc; simpl;
    try (exists acc; split; [reflexivity|exact Hacc]).
  rewrite (aligned_head _ _ _ _ Hal), String.eqb_refl. cbn [negb].
  inversion Hw as [|? ? Hb Hw']; subst.
  rewrite (stance_eqb_sym (View.stance b) (View.stance a)).
  apply IH; [exact (aligned_tail _ _ _ _ Hal)|exact Hw'|].
  destruct (stance_eqb (View.stance a) (View.stance b)); [|exact Hacc].
  rewrite Hacc, Hb, Nat2Z.inj_add, inject_Z_plus. simpl. ring.
Qed.

(** X15. For a voter all of whose weights are 1, the agreement score
    that [vote] computes for an aligned candidate is the number that
    [analyze_results] reports for the pair: the number of positions of
    equal stance. *)
Theorem unit_weight_score_is_agreement_count (v : Person.t) (c : Candidate.t) :
  aligned (Candidate.views c) (Person.views v) ->
  Forall (fun x => (View.weight x == 1)%Q) (Person.views v) ->
  exists s,
    Person.score v c = inr s /\
    analyze_results [v] c = [agreeing_positions (Person.views v) (Candidate.views c)] /\
    (s == inject_Z (Z.of_nat (agreeing_positions (Person.views v) (Candidate.views c))))%Q.
Proof.
  intros Hal Hw.
  destruct (score_views_unit (Candidate.views c) (Person.views v) 0%Q 0 Hal Hw)
    as (s & Hs & Es); [reflexivity|].
  exists s. split; [exact Hs|].
  rewrite count_agreements_positions in Es. simpl in Es.
  split; [|exact Es].
  unfold analyze_results. simpl. now rewrite count_agreements_positions.
Qed.





(** ** Tallies *)

Lemma dict_get_set_same {V : Type} (d : dict V) (k : string) (v : V) :
  dict_get (dict_set d k v) k = inr v.
Proof.
  induction d as [|[k' v'] d IH]; simpl.
  - now rewrite String.eqb_refl.
  - destruct (String.eqb k' k) eqn:E; simpl; rewrite E; [reflexivity|exact IH].
Qed.

Lemma dict_get_set_other {V : Type} (d : dict V) (k t : string) (v : V) :
  t <> k -> dict_get (dict_set d k v) t = dict_get d t.
Proof.
  intros N. induction d as [|[k' v'] d IH]; simpl.
  - apply String.eqb_neq in N. now rewrite String.eqb_sym, N.
  - destruct (String.eqb_spec k' k) as [->|N']; simpl.
    + apply String.eqb_neq in N. now rewrite String.eqb_sym, N.
    + destruct (String.eqb k' t); [reflexivity|exact IH].
Qed.

(** X17. [vote_for_stance] on a stance that is a key of the tally
    returns: the count of that stance is one higher, every other count
    and the order of the keys are as before.  On any other stance, and
    on [None], it raises [KeyError]. *)
Theorem vote_for_stance_counts_one (self : IssueVotes.t) (s : string) :
  (In s (dict_keys (IssueVotes.stance_votes self)) ->
   exists n self',
     dict_get (IssueVotes.stance_votes self) s = inr n /\
     IssueVotes.vote_for_stance self (Some s) = inr self' /\
     IssueVotes.issue self' = IssueVotes.issue self /\
     dict_keys (IssueVotes.stance_votes self')
     = dict_keys (IssueVotes.stance_votes self) /\
     dict_get (IssueVotes.stance_votes self') s = inr (n + 1) /\
     forall t, t <> s ->
       dict_get (IssueVotes.stance_votes self') t
       = dict_get (IssueVotes.stance_votes self) t) /\
  (~ In s (dict_keys (IssueVotes.stance_votes self)) ->
   IssueVotes.vote_for_stance self (Some s) = inl KeyError) /\
  IssueVotes.vote_for_stance self None = inl KeyError.
Proof.
  destruct (dict_get_key (IssueVotes.stance_votes self) s) as [G1 G2].
  split; [|split; [|reflexivity]].
  - intros Hin. destruct (G1 Hin) as [n Hn]. unfold IssueVotes.vote_for_stance.
    rewrite Hn. exists n. eexists. split; [reflexivity|]. split; [reflexivity|].
    simpl. split; [reflexivity|]. split.
    + apply (proj1 (dict_set_keys _ _ _)). exact Hin.
    + split; [apply dict_get_set_same|].
      intros t Ht. now apply dict_get_set_other.
  - intros Hout. unfold IssueVotes.vote_for_stance. now rewrite (G2 Hout).
Qed.

Lemma majority_loop_zero (kvs : list (string * nat)) :
  Forall (fun kv => snd kv = 0) kvs ->
  IssueVotes.majority_loop kvs 0 None = None.
Proof.
  induction 1 as [|[k v] kvs Hv _ IH]; simpl; [reflexivity|].
  simpl in Hv. subst v. exact IH.
Qed.

Lemma IssueVotes_init_is_empty_aux (issue : Issue.t) :
  IssueVotes.get_majority_stance (IssueVotes.init issue) = None.
Proof.
  unfold IssueVotes.get_majority_stance, items. simpl.
  apply majority_loop_zero.
  eapply Forall_impl; [|exact (fromkeys_values 0 (Issue.stances issue))]. auto.
Qed.

(** X18. A fresh [IssueVotes] has a count of 0 for each declared stance
    and for nothing else, lists a stance declared twice once, and has no
    majority stance. *)
Theorem IssueVotes_init_is_empty (issue : Issue.t) :
  IssueVotes.issue (IssueVotes.init issue) = issue /\
  NoDup (dict_keys (IssueVotes.stance_votes (IssueVotes.init issue))) /\
  (forall s,
     (In s (Issue.stances issue) ->
      dict_get (IssueVotes.stance_votes (IssueVotes.init issue)) s = inr 0) /\
     (~ In s (Issue.stances issue) ->
      dict_get (IssueVotes.stance_votes (IssueVotes.init issue)) s = inl KeyError)) /\
  IssueVotes.get_majority_stance (IssueVotes.init issue) = None.
Proof.
  destruct (fromkeys_keys (Issue.stances issue)) as (Hnd & Hin & _).
  assert (Hv := fromkeys_values 0 (Issue.stances issue)).
  split; [reflexivity|]. split; [exact Hnd|]. split.
  - intros s. simpl.
    destruct (dict_get_key (dict_fromkeys (Issue.stances issue) 0) s) as [G1 G2].
    split; intros H.
    + destruct (G1 (proj2 (Hin s) H)) as [n Hn]. rewrite Hn. f_equal.
      clear - Hn Hv. induction Hv as [|[k v] d Hx _ IH]; simpl in *; [discriminate|].
      destruct (String.eqb k s); [injection Hn as <-; exact Hx|exact (IH Hn)].
    + apply G2. intros H'. apply H, Hin, H'.
  - unfold IssueVotes.get_majority_stance, items. simpl.
    apply majority_loop_zero.
    eapply Forall_impl; [|exact Hv]. auto.
Qed.

Lemma maj_views_issues (issues : list Issue.t) :
  forall issue_votes : list IssueVotes.t,
    length issue_votes = length issues ->
    map View.issue
        (map (fun '(i, iv) => View.init i (IssueVotes.get_majority_stance iv) 1%Q)
             (combine issues issue_votes))
    = issues.
Proof.
  induction issues as [|i l IH]; intros [|iv ivs] H; try discriminate;
    [reflexivity|].
  simpl in *. injection H as H. now rewrite IH.
Qed.

(** X19. Without voters [generate_majority_candidate] returns a
    candidate named majority, without votes, with one view per issue,
    and with stance [None] in every view. *)
Theorem majority_candidate_without_voters (issues : list Issue.t) :
  exists m,
    generate_majority_candidate [] issues = inr m /\
    Candidate.name m = "majority"%string /\
    Candidate.votes m = 0 /\
    Permutation (map View.issue (Candidate.views m)) issues /\
    Forall (fun v => View.stance v = None) (Candidate.views m).
Proof.
  unfold generate_majority_candidate. simpl. eexists. split; [reflexivity|].
  simpl. split; [reflexivity|]. split; [reflexivity|].
  set (maj_views := map _ (combine issues (map IssueVotes.init issues))).
  assert (Hi : map View.issue maj_views = issues).
  { unfold maj_views. apply maj_views_issues. apply length_map. }
  assert (Hs : Forall (fun v => View.stance v = None) maj_views).
  { unfold maj_views. apply Forall_map. apply Forall_forall. intros [i iv] Hin.
    simpl. apply in_combine_r in Hin. apply in_map_iff in Hin.
    destruct Hin as (j & <- & _). apply IssueVotes_init_is_empty_aux. }
  split.
  - transitivity (map View.issue maj_views);
      [apply Permutation_map, sorted_Permutation|now rewrite Hi].
  - apply Forall_forall. intros v Hv. apply (proj1 (sorted_In _ _ _ _)) in Hv.
    rewrite Forall_forall in Hs. now apply Hs.
Qed.

(** X20. In every run whose build phase returns,
    [generate_majority_candidate] returns for the voters of the run: a
    candidate named majority, without votes, with exactly one view per
    issue in registry order, aligned with every voter. *)
Theorem run_majority_candidate_follows_registry (settings : Settings.t)
    (rng rng' : RNG) (issues : list Issue.t) (candidates : list Candidate.t)
    (populations : list Population.t) :
  build settings rng = (inr (issues, candidates, populations), rng') ->
  exists m,
    generate_majority_candidate (concat (map Population.people populations)) issues
    = inr m /\
    Candidate.name m = "majority"%string /\
    Candidate.votes m = 0 /\
    map View.issue (Candidate.views m) = issues /\
    Forall (fun p => aligned (Candidate.views m) (Person.views p))
           (concat (map Population.people populations)).
Proof.
  intros Hb.
  assert (Hv := build_gives_voters_of_the_registry _ _ _ _ _ _ Hb).
  assert (Hasc : ascending Issue.name String.ltb issues).
  { unfold build, gbind in Hb.
    destruct (generate_populations _ _ rng) as [[e|pops] r1]; [discriminate|].
    unfold gret in Hb. injection Hb as <- _ _ _. apply generate_issues_ascending. }
  set (people := concat (map Population.people populations)) in *.
  assert (Hinit : forall i issue, nth_error issues i = Some issue ->
            nth_error (map IssueVotes.init issues) i
            = Some (tallied issue (count_stance [] i))).
  { intros j x Hj. rewrite (map_nth_error _ _ _ Hj). f_equal. apply init_tallied. }
  destruct (tally_people_succeeds issues people Hv [] (map IssueVotes.init issues)
              (length_map _ _) Hinit) as [issue_votes Ht].
  destruct (tally_people_returns issues people [] _ _ (length_map _ _) Hinit Ht)
    as [Hlen _].
  unfold generate_majority_candidate. rewrite Ht. cbn [bind ret].
  eexists. split; [reflexivity|]. cbn [Candidate.name Candidate.votes Candidate.views
                                          Candidate.init].
  split; [reflexivity|]. split; [reflexivity|].
  assert (Hi := maj_views_issues issues issue_votes Hlen).
  assert (Hk : map View.issue
                 (map (fun '(i, iv) =>
                         View.init i (IssueVotes.get_majority_stance iv) 1%Q)
                      (combine issues issue_votes))
               = firstn (length issues) issues) by now rewrite firstn_all.
  rewrite (sorted_views_over_prefix issues _ _ Hasc Hk).
  split; [exact Hi|].
  eapply Forall_impl; [|exact Hv]. intros p [[k Hp] _].
  eapply prefixes_aligned; eassumption.
Qed.

(** ** The winner's share *)

Lemma total_votes_bounds (l : list Candidate.t) (m : nat) :
  (Forall (fun c => Candidate.votes c <= m) l -> total_votes l <= length l * m) /\
  (Forall (fun c => m <= Candidate.votes c) l -> length l * m <= total_votes l).
Proof.
  unfold total_votes. split; induction 1 as [|c l Hc _ IH]; simpl; lia.
Qed.

(** X21. Whenever the ranking returns, the winner has at least the
    average number of votes and the loser at most the average; if
    anybody voted, the winner has a vote. *)
Theorem winner_has_at_least_the_average (candidates : list Candidate.t)
    (people : list Person.t) (t : Tally) :
  rank candidates people = inr t ->
  total_votes candidates <= length candidates * Candidate.votes (winner t) /\
  length candidates * Candidate.votes (loser t) <= total_votes candidates /\
  (0 < total_votes candidates -> 0 < Candidate.votes (winner t)).
Proof.
  intros H.
  assert (Hne : candidates <> []).
  { intros ->. unfold rank in H. simpl in H. discriminate. }
  destruct (rank_returns candidates people Hne)
    as (t' & Hr & _ & _ & _ & _ & Hw & Hl).
  rewrite H in Hr. injection Hr as <-.
  destruct Hw as (w1 & w2 & Ew & Hw1 & Hw2).
  destruct Hl as (l1 & l2 & El & Hl1 & Hl2).
  assert (Hmax : Forall (fun c => Candidate.votes c <= Candidate.votes (winner t))
                        candidates).
  { rewrite Ew. apply Forall_app. split.
    - eapply Forall_impl; [|exact Hw1]. intros c Hc. simpl in Hc. lia.
    - constructor; [lia|exact Hw2]. }
  assert (Hmin : Forall (fun c => Candidate.votes (loser t) <= Candidate.votes c)
                        candidates).
  { rewrite El. apply Forall_app. split; [exact Hl1|].
    constructor; [lia|]. eapply Forall_impl; [|exact Hl2].
    intros c Hc. simpl in Hc. lia. }
  destruct (total_votes_bounds candidates (Candidate.votes (winner t))) as [B1 _].
  destruct (total_votes_bounds candidates (Candidate.votes (loser t))) as [_ B2].
  specialize (B1 Hmax). specialize (B2 Hmin).
  repeat split; try assumption. nia.
Qed.

(** ** A voter without views *)

Lemma score_no_views (self : Person.t) (c : Candidate.t) :
  Person.views self = [] -> Person.score self c = inr 0%Q.
Proof.
  intros H. unfold Person.score. rewrite H.
  destruct (Candidate.views c); reflexivity.
Qed.

(** X22. A voter without views gives its vote to the first candidate of
    the list, whatever the candidates' views: every score is 0 and no
    issue name is compared. *)
Theorem voter_without_views_votes_for_the_first (self : Person.t)
    (c : Candidate.t) (rest : list Candidate.t) :
  Person.views self = [] ->
  Person.vote self (c :: rest)
  = (inr tt, (self, Candidate.receive_vote c :: rest)).
Proof.
  intros H.
  destruct (vote_aligned self (c :: rest)) as
    (before & chosen & after & s & E & Hs & Hb & _ & Hv & _).
  - discriminate.
  - apply Forall_forall. intros x _ i a b _ Hb. rewrite H in Hb.
    destruct i; discriminate.
  - rewrite (score_no_views self chosen H) in Hs. injection Hs as <-.
    destruct before as [|b0 before].
    + simpl in E. injection E as <- <-. exact Hv.
    + exfalso. inversion Hb as [|? ? (u & Hu & Hlt) _]; subst.
      rewrite (score_no_views self b0 H) in Hu. injection Hu as <-.
      now apply (Qlt_irrefl 0).
Qed.

(** ** The further properties at the small election *)

Lemma Forall2_nth {X Y : Type} (R : X -> Y -> Prop) (l1 : list X) (l2 : list Y) :
  Forall2 R l1 l2 ->
  forall n a b, nth_error l1 n = Some a -> nth_error l2 n = Some b -> R a b.
Proof.
  induction 1 as [|x y l1 l2 Hxy _ IH]; intros [|n] a b Ha Hb; simpl in *;
    try discriminate.
  - injection Ha as <-. injection Hb as <-. exact Hxy.
  - exact (IH n a b Ha Hb).
Qed.

(** Alice declares both issues, tax first; her views follow the
    registry, parks first. *)
Lemma complete_candidate_witness :
  exists alice,
    nth_error (generate_candidates (Settings.candidates ex_settings)
                 (generate_issues (Settings.issues ex_settings))) 0 = Some alice /\
    map View.issue (Candidate.views alice) = [ex_parks; ex_tax] /\
    exists v, In v (Candidate.views alice) /\
              View.issue_name v = "tax"%string /\
              View.stance v = Some "cut"%string.
Proof.
  destruct (nth_error (generate_candidates (Settings.candidates ex_settings)
                         (generate_issues (Settings.issues ex_settings))) 0)
    as [alice|] eqn:E; [|vm_compute in E; discriminate E].
  exists alice. split; [reflexivity|].
  assert (H := Forall2_nth _ _ _
                 (complete_candidate_views_land_on_their_issues ex_settings)
                 0 _ alice eq_refl E).
  simpl in H. destruct H as (Hi & _ & Hin); [apply Permutation_refl|].
  split; [exact Hi|].
  exact (Hin (CandidateViewSetting.mk "tax" "cut") (or_introl eq_refl)).
Defined.

(** The town's issue views are given tax first; its population views
    follow the registry. *)
Lemma complete_population_witness :
  exists populations rng' town,
    generate_populations (Settings.populations ex_settings)
      (generate_issues (Settings.issues ex_settings)) ex_rng
    = (inr populations, rng') /\
    nth_error populations 0 = Some town /\
    length (Population.people town) = 2 /\
    map PopulationView.issue (Population.population_views town) = [ex_parks; ex_tax].
Proof.
  destruct (generate_populations (Settings.populations ex_settings)
              (generate_issues (Settings.issues ex_settings)) ex_rng)
    as [[e|populations] rng'] eqn:E; [vm_compute in E; discriminate E|].
  destruct (nth_error populations 0) as [town|] eqn:E0;
    [|vm_compute in E; injection E as <- _; discriminate E0].
  exists populations, rng', town. split; [reflexivity|]. split; [exact E0|].
  assert (H := Forall2_nth _ _ _
                 (complete_population_views_land_on_their_issues
                    ex_settings ex_rng rng' populations E)
                 0 _ town eq_refl E0).
  simpl in H. destruct H as (_ & _ & Hl & Hv). split; [exact Hl|].
  destruct Hv as [Hi _]; [apply Permutation_refl|exact Hi].
Defined.


(** The first voter of the small election. *)
Lemma Person_init_views_witness :
  exists p r',
    Person.init ex_population_views ex_rng = (inr p, r') /\
    Permutation (map View.issue (Person.views p)) [ex_parks; ex_tax] /\
    Forall declared (Person.views p).
Proof.
  destruct (Person.init ex_population_views ex_rng) as [[e|p] r'] eqn:E;
    [vm_compute in E; discriminate E|].
  exists p, r'. split; [reflexivity|].
  destruct (Person_init_views_shape ex_population_views ex_rng r' p E)
    as (HP & _ & HD).
  split; [exact HP|exact HD].
Defined.

(** A population of size -3 over views that cannot be drawn from. *)
Lemma Population_init_witness :
  ((-3) <= 0)%Z /\
  Population.init "ghost town" (-3) ex_undrawable_views ex_rng
  = (inr (Population.mk (-3) "ghost town" ex_undrawable_views []), ex_rng).
Proof.
  assert (H : ((-3) <= 0)%Z) by lia.
  split; [exact H|].
  exact (proj2 (Population_init_size "ghost town" (-3) ex_undrawable_views ex_rng) H).
Defined.

(** Dave, constructed with his views in the order tax, parks, before
    the first voter of the small election. *)
Lemma constructed_views_witness :
  exists p r',
    Person.init ex_population_views ex_rng = (inr p, r') /\
    aligned (Candidate.views
               (Candidate.init "Dave"
                  [View.init ex_tax (Some "cut"%string) 1%Q;
                   View.init ex_parks (Some "more"%string) 1%Q]))
            (Person.views p).
Proof.
  destruct (Person.init ex_population_views ex_rng) as [[e|p] r'] eqn:E;
    [vm_compute in E; discriminate E|].
  exists p, r'. split; [reflexivity|].
  destruct (constructed_views_are_aligned "Dave"
              [View.init ex_tax (Some "cut"%string) 1%Q;
               View.init ex_parks (Some "more"%string) 1%Q]
              ex_population_views ex_rng r' p E) as (_ & Hal & _).
  - apply perm_swap.
  - exact Hal.
Defined.

(** The small election without candidates. *)
Lemma run_without_candidates_witness :
  Settings.candidates ex_no_candidates = [] /\
  run_election ex_no_candidates ex_rng = inl IndexError.
Proof.
  assert (H : Settings.candidates ex_no_candidates = []) by reflexivity.
  split; [exact H|].
  rewrite (run_without_candidates_raises ex_no_candidates ex_rng H).
  vm_compute. reflexivity.
Defined.

Lemma run_raises_witness :
  run_election ex_no_candidates ex_rng = inl IndexError /\
  IndexError <> Exception /\
  Settings.candidates ex_no_candidates = [].
Proof.
  assert (H : run_election ex_no_candidates ex_rng = inl IndexError)
    by (vm_compute; reflexivity).
  split; [exact H|].
  destruct (run_raises_only_from_the_build ex_no_candidates ex_rng IndexError H)
    as [Hn _].
  split; [exact Hn|reflexivity].
Defined.

(** The small election with a population of size -3. *)
Lemma run_without_voters_witness :
  Settings.candidates ex_no_voters <> [] /\
  Forall (fun pop => (PopulationSetting.size pop <= 0)%Z)
         (Settings.populations ex_no_voters) /\
  exists t,
    run_election ex_no_voters ex_rng = inr t /\
    map Candidate.name (ranking t) = ["Alice"; "Bob"; "Carol"]%string /\
    hd_error (ranking t) = Some (winner t) /\
    (exists front, ranking t = front ++ [loser t]).
Proof.
  assert (H1 : Settings.candidates ex_no_voters <> []) by discriminate.
  assert (H2 : Forall (fun pop => (PopulationSetting.size pop <= 0)%Z)
                      (Settings.populations ex_no_voters))
    by (repeat constructor; simpl; lia).
  split; [exact H1|]. split; [exact H2|].
  destruct (run_without_voters ex_no_voters ex_rng H1 H2)
    as (t & Hr & _ & _ & Hn & Hw & Hl).
  exists t. auto.
Defined.

(** Two voters in one population, and the same voters the other way
    round in two populations. *)
Lemma voting_pass_order_witness :
  exists counted,
    vote_populations
      [Population.mk 2 "town" ex_population_views [ex_voter; ex_voter2]]
      [ex_alice; ex_bob; ex_carol] []
    = inr (counted, [ex_voter; ex_voter2]) /\
    vote_populations
      [Population.mk 1 "north" ex_population_views [ex_voter2];
       Population.mk 1 "south" ex_population_views [ex_voter]]
      [ex_alice; ex_bob; ex_carol] []
    = inr (counted, [ex_voter2; ex_voter]) /\
    map Candidate.votes counted = [0; 2; 0].
Proof.
  destruct (vote_populations
              [Population.mk 2 "town" ex_population_views [ex_voter; ex_voter2]]
              [ex_alice; ex_bob; ex_carol] []) as [e|[counted voted]] eqn:E;
    [vm_compute in E; discriminate E|].
  assert (Hv : voted = [ex_voter; ex_voter2])
    by (vm_compute in E; injection E as _ <-; reflexivity).
  subst voted. exists counted. split; [reflexivity|]. split.
  - apply (voting_pass_is_order_independent
             [Population.mk 2 "town" ex_population_views [ex_voter; ex_voter2]]
             [Population.mk 1 "north" ex_population_views [ex_voter2];
              Population.mk 1 "south" ex_population_views [ex_voter]]
             [ex_alice; ex_bob; ex_carol] counted [ex_voter; ex_voter2]);
      [apply perm_swap|exact E].
  - vm_compute in E. injection E as <-. reflexivity.
Defined.

(** Bob gets the example voter's vote also when Alice already has
    votes and the names are exchanged. *)
Lemma vote_views_only_witness :
  map Candidate.views
      [Candidate.mk (Candidate.views ex_alice) 7 "Bob";
       Candidate.mk (Candidate.views ex_bob) 0 "Alice"]
  = map Candidate.views [ex_alice; ex_bob] /\
  exists k,
    Person.vote ex_voter [ex_alice; ex_bob]
    = (inr tt, (ex_voter, method_at k Candidate.receive_vote [ex_alice; ex_bob])) /\
    Person.vote ex_voter
      [Candidate.mk (Candidate.views ex_alice) 7 "Bob";
       Candidate.mk (Candidate.views ex_bob) 0 "Alice"]
    = (inr tt,
       (ex_voter,
        method_at k Candidate.receive_vote
          [Candidate.mk (Candidate.views ex_alice) 7 "Bob";
           Candidate.mk (Candidate.views ex_bob) 0 "Alice"])).
Proof.
  assert (H : map Candidate.views
                  [Candidate.mk (Candidate.views ex_alice) 7 "Bob";
                   Candidate.mk (Candidate.views ex_bob) 0 "Alice"]
              = map Candidate.views [ex_alice; ex_bob]) by reflexivity.
  split; [exact H|].
  destruct (vote_depends_on_views_only ex_voter [ex_alice; ex_bob] _ H) as [k Hk].
  exists k.
  destruct (fst (Person.vote ex_voter [ex_alice; ex_bob])) as [e|u] eqn:E;
    [vm_compute in E; discriminate E|exact Hk].
Defined.

(** A voter with unit weights who agrees with Alice on parks only. *)
Lemma unit_weight_witness :
  exists s,
    Person.score
      (Person.mk [View.mk ex_parks (Some "more"%string) 1%Q;
                  View.mk ex_tax (Some "cut"%string) 1%Q]) ex_alice = inr s /\
    (s == 1)%Q.
Proof.
  destruct (unit_weight_score_is_agreement_count
              (Person.mk [View.mk ex_parks (Some "more"%string) 1%Q;
                          View.mk ex_tax (Some "cut"%string) 1%Q]) ex_alice)
    as (s & Hs & _ & Es).
  - apply alignedb_sound. reflexivity.
  - repeat constructor; reflexivity.
  - exists s. split; [exact Hs|]. rewrite Es. reflexivity.
Defined.


(** A vote for a tax cut on a fresh tally, and one for an undeclared
    stance. *)
Lemma vote_for_stance_witness :
  In "cut"%string (dict_keys (IssueVotes.stance_votes (IssueVotes.init ex_tax))) /\
  (exists self',
     IssueVotes.vote_for_stance (IssueVotes.init ex_tax) (Some "cut"%string)
     = inr self' /\
     dict_get (IssueVotes.stance_votes self') "cut" = inr 1 /\
     dict_get (IssueVotes.stance_votes self') "raise" = inr 0) /\
  IssueVotes.vote_for_stance (IssueVotes.init ex_tax) (Some "more"%string)
  = inl KeyError.
Proof.
  assert (H1 : In "cut"%string
                  (dict_keys (IssueVotes.stance_votes (IssueVotes.init ex_tax))))
    by (left; reflexivity).
  split; [exact H1|].
  destruct (vote_for_stance_counts_one (IssueVotes.init ex_tax) "cut")
    as (Hin & _ & _).
  destruct (vote_for_stance_counts_one (IssueVotes.init ex_tax) "more")
    as (_ & Hout & _).
  split.
  - destruct (Hin H1) as (n & self' & Hn & Hv & _ & _ & Hs & Ho).
    exists self'. split; [exact Hv|].
    assert (n = 0) by (vm_compute in Hn; now injection Hn).
    subst n. split; [exact Hs|].
    rewrite (Ho "raise"%string); [reflexivity|discriminate].
  - apply Hout. simpl. intros [H|[H|H]]; [discriminate H|discriminate H|exact H].
Defined.

(** The majority candidate of the small election. *)
Lemma run_majority_witness :
  exists issues candidates populations rng' m,
    build ex_settings ex_rng = (inr (issues, candidates, populations), rng') /\
    generate_majority_candidate (concat (map Population.people populations)) issues
    = inr m /\
    map View.issue (Candidate.views m) = issues.
Proof.
  destruct (build ex_settings ex_rng) as [[e|[[issues candidates] populations]] rng']
    eqn:Hb; [vm_compute in Hb; discriminate Hb|].
  destruct (run_majority_candidate_follows_registry ex_settings ex_rng rng'
              issues candidates populations Hb) as (m & Hm & _ & _ & Hi & _).
  exists issues, candidates, populations, rng', m. auto.
Defined.

(** Three candidates and two votes, both for Bob. *)
Lemma winner_share_witness :
  exists t,
    rank [ex_alice; Candidate.receive_vote (Candidate.receive_vote ex_bob); ex_carol]
         [ex_voter; ex_voter2] = inr t /\
    Candidate.name (winner t) = "Bob"%string /\
    2 <= 3 * Candidate.votes (winner t) /\
    3 * Candidate.votes (loser t) <= 2.
Proof.
  destruct (rank [ex_alice; Candidate.receive_vote (Candidate.receive_vote ex_bob);
                  ex_carol] [ex_voter; ex_voter2]) as [e|t] eqn:E;
    [vm_compute in E; discriminate E|].
  exists t. split; [reflexivity|].
  destruct (winner_has_at_least_the_average _ _ t E) as (H1 & H2 & _).
  split; [vm_compute in E; injection E as <-; reflexivity|].
  split; [exact H1|exact H2].
Defined.

(** A voter without views before Dave and Alice. *)
Lemma voter_without_views_witness :
  Person.views (Person.mk []) = [] /\
  Person.vote (Person.mk []) [ex_dave; ex_alice]
  = (inr tt, (Person.mk [], [Candidate.receive_vote ex_dave; ex_alice])).
Proof.
  assert (H : Person.views (Person.mk []) = []) by reflexivity.
  exact (conj H (voter_without_views_votes_for_the_first (Person.mk []) ex_dave
                   [ex_alice] H)).
Defined.
